(** * Authorization decision core: handlers/handler_user_info.go and oidc/keys.go

    A shallow embedding of the user-information handlers (the concurrent
    preference aggregation [loadInfo], [UserInfoGet], [MethodPreferencePost])
    and of the OIDC [KeyManager], together with the access-control engine as
    the specification describes it. *)

From stdpp Require Import base option list strings pretty gmap.
From Stdlib Require Import Ascii Lia.

Set Default Proof Using "Type".

(** ** Go values shared by the packages *)

(** Go's [error] interface, as far as the handlers can tell errors apart:
    the two sentinel values of package storage, compared with [==], and every
    other error, known by its text. A nil error is [None]. *)
Inductive error : Type :=
| ErrNoU2FDeviceHandle
| ErrNoTOTPSecret
| errorString (s : string).

#[global] Instance error_eq_dec : EqDecision error.
Proof. solve_decision. Defined.

(** What logrus receives: [logger.Error(err)] and [Logger.Debugf(...)]. *)
Inductive logEntry : Type :=
| LogError (err : error)
| LogDebug (text : string).

#[global] Instance logEntry_eq_dec : EqDecision logEntry.
Proof. solve_decision. Defined.

(** [storage.Provider], restricted to the four methods the handlers call.
    A lookup is issued once per aggregation, so its outcome is a function of
    the user name. *)
Record Provider : Type := {
  LoadPreferred2FAMethod : string -> string * option error;
  LoadU2FDeviceHandle : string -> list Byte.byte * list Byte.byte * option error;
  LoadTOTPSecret : string -> string * option error;
  SavePreferred2FAMethod : string -> string -> option error
}.

(** [UserPreferences], the aggregated result. *)
Record UserPreferences : Type := {
  Method : string;
  HasU2F : bool;
  HasTOTP : bool
}.

#[global] Instance UserPreferences_eq_dec : EqDecision UserPreferences.
Proof. solve_decision. Defined.

Definition set_Method (v : string) (p : UserPreferences) : UserPreferences :=
  {| Method := v; HasU2F := HasU2F p; HasTOTP := HasTOTP p |}.
Definition set_HasU2F (v : bool) (p : UserPreferences) : UserPreferences :=
  {| Method := Method p; HasU2F := v; HasTOTP := HasTOTP p |}.
Definition set_HasTOTP (v : bool) (p : UserPreferences) : UserPreferences :=
  {| Method := Method p; HasU2F := HasU2F p; HasTOTP := v |}.

(** ** loadInfo: three goroutines over shared memory *)

(** The memory the three goroutines of [loadInfo] share: the result behind
    the [preferences] pointer, the local slice [errors] captured by the three
    closures, the logger and the counter of the [sync.WaitGroup]. *)
Record shared : Type := {
  preferences : UserPreferences;
  errors : list error;
  logger : list logEntry;
  wg : nat
}.

Definition with_preferences (f : UserPreferences -> UserPreferences) (s : shared) : shared :=
  {| preferences := f (preferences s); errors := errors s; logger := logger s; wg := wg s |}.
Definition with_errors (v : list error) (s : shared) : shared :=
  {| preferences := preferences s; errors := v; logger := logger s; wg := wg s |}.
Definition with_logger (v : list logEntry) (s : shared) : shared :=
  {| preferences := preferences s; errors := errors s; logger := v; wg := wg s |}.
Definition with_wg (v : nat) (s : shared) : shared :=
  {| preferences := preferences s; errors := errors s; logger := logger s; wg := v |}.

(** Where a goroutine stands. Every constructor is one access to shared
    memory (or the one call to the store), so that the scheduler may switch
    goroutines between any two of them; in particular
    [errors = append(errors, err)] is a read of [errors] ([AtRead]) followed
    by a write of the extended slice ([AtAppend]), with no lock in between,
    as in the source. [A] is what the goroutine holds for its field. *)
Inductive pc (A : Type) : Type :=
| AtCall                                     (* about to query the store *)
| AtRead (err : error)                       (* about to read [errors] *)
| AtAppend (err : error) (seen : list error) (* about to assign [errors] *)
| AtLog (err : error)                        (* about to call logger.Error *)
| AtStore (v : A)                            (* about to write its field *)
| AtDone                                     (* deferred wg.Done() pending *)
| Exited
| Panicked.
Arguments AtCall {A}.
Arguments AtRead {A} err.
Arguments AtAppend {A} err seen.
Arguments AtLog {A} err.
Arguments AtStore {A} v.
Arguments AtDone {A}.
Arguments Exited {A}.
Arguments Panicked {A}.

Inductive goroutine : Type := GMethod | GU2F | GTOTP.

#[global] Instance goroutine_eq_dec : EqDecision goroutine.
Proof. solve_decision. Defined.

Record machine : Type := {
  mem : shared;
  pcMethod : pc string;
  pcU2F : pc unit;
  pcTOTP : pc unit
}.

Section LoadInfo.

(** [authentication.PossibleMethods], a package-level slice of package
    authentication. *)
Variable PossibleMethods : list string.

Variable username : string.
Variable storageProvider : Provider.

(** The steps common to the three closures: the unlocked append, the log
    call and the deferred [wg.Done()], which panics on a negative counter. *)
Definition step_common {A : Type} (s : shared) (p : pc A) : shared * pc A :=
  match p with
  | AtRead err => (s, AtAppend err (errors s))
  | AtAppend err seen => (with_errors (seen ++ [err]) s, AtLog err)
  | AtLog err => (with_logger (logger s ++ [LogError err]) s, AtDone)
  | AtDone =>
      match wg s with
      | O => (s, Panicked)
      | S n => (with_wg n s, Exited)
      end
  | _ => (s, p)
  end.

(** The deferred [wg.Done()] of a goroutine that panics: Go runs the deferred
    calls of a panicking goroutine before the program ends. *)
Definition panicking (s : shared) : shared :=
  match wg s with
  | O => s
  | S n => with_wg n s
  end.

(** First closure: the preferred method. The index expression panics on an
    empty slice; it touches no shared memory, so the panic and the deferred
    [wg.Done()] it sets off are one step. *)
Definition step_method (s : shared) (p : pc string) : shared * pc string :=
  match p with
  | AtCall =>
      match LoadPreferred2FAMethod storageProvider username with
      | (_, Some err) => (s, AtRead err)
      | (method, None) => (s, AtStore method)
      end
  | AtStore method =>
      if decide (method = "") then
        match PossibleMethods !! 0%nat with
        | Some m0 => (with_preferences (set_Method m0) s, AtDone)
        | None => (panicking s, Panicked)  (* index out of range *)
        end
      else (with_preferences (set_Method method) s, AtDone)
  | _ => step_common s p
  end.

(** Second closure: the U2F device handle. *)
Definition step_u2f (s : shared) (p : pc unit) : shared * pc unit :=
  match p with
  | AtCall =>
      match LoadU2FDeviceHandle storageProvider username with
      | (_, _, Some err) =>
          if decide (err = ErrNoU2FDeviceHandle) then (s, AtDone)
          else (s, AtRead err)
      | (_, _, None) => (s, AtStore ())
      end
  | AtStore _ => (with_preferences (set_HasU2F true) s, AtDone)
  | _ => step_common s p
  end.

(** Third closure: the TOTP secret. *)
Definition step_totp (s : shared) (p : pc unit) : shared * pc unit :=
  match p with
  | AtCall =>
      match LoadTOTPSecret storageProvider username with
      | (_, Some err) =>
          if decide (err = ErrNoTOTPSecret) then (s, AtDone)
          else (s, AtRead err)
      | (_, None) => (s, AtStore ())
      end
  | AtStore _ => (with_preferences (set_HasTOTP true) s, AtDone)
  | _ => step_common s p
  end.

(** One step of the goroutine the scheduler picked. A goroutine that has
    exited (or panicked) makes no step. *)
Definition step (g : goroutine) (m : machine) : machine :=
  match g with
  | GMethod =>
      let '(s, p) := step_method (mem m) (pcMethod m) in
      {| mem := s; pcMethod := p; pcU2F := pcU2F m; pcTOTP := pcTOTP m |}
  | GU2F =>
      let '(s, p) := step_u2f (mem m) (pcU2F m) in
      {| mem := s; pcMethod := pcMethod m; pcU2F := p; pcTOTP := pcTOTP m |}
  | GTOTP =>
      let '(s, p) := step_totp (mem m) (pcTOTP m) in
      {| mem := s; pcMethod := pcMethod m; pcU2F := pcU2F m; pcTOTP := p |}
  end.

(** A schedule is the order in which the goroutines get to run. *)
Fixpoint exec (sched : list goroutine) (m : machine) : machine :=
  match sched with
  | [] => m
  | g :: sched' => exec sched' (step g m)
  end.

(** [wg.Add(3)], [errors := make([]error, 0)] and the three [go]
    statements. *)
Definition spawn (prefs : UserPreferences) (log : list logEntry) : machine :=
  {| mem := {| preferences := prefs; errors := []; logger := log; wg := 3 |};
     pcMethod := AtCall; pcU2F := AtCall; pcTOTP := AtCall |}.

Definition is_panicked {A : Type} (p : pc A) : bool :=
  match p with Panicked => true | _ => false end.

Definition crashed (m : machine) : bool :=
  is_panicked (pcMethod m) || is_panicked (pcU2F m) || is_panicked (pcTOTP m).

(** What the caller holds once [loadInfo] has returned: the returned slice,
    the result behind the pointer it passed, and the log. *)
Record loadInfoResult : Type := {
  returned : list error;
  result : UserPreferences;
  logged : list logEntry
}.

(** [loadInfo] under a schedule: [wg.Wait()] lets the caller through when the
    counter is zero; [None] when the schedule leaves it blocked. A panic of a
    goroutine ends the program: no result is given for such a run, whatever
    the caller may still get to do before the program is gone. *)
Definition loadInfo (sched : list goroutine)
    (prefs : UserPreferences) (log : list logEntry) : option loadInfoResult :=
  let m := exec sched (spawn prefs log) in
  if crashed m then None
  else match wg (mem m) with
       | O => Some {| returned := errors (mem m);
                      result := preferences (mem m);
                      logged := logger (mem m) |}
       | S _ => None
       end.

(** *** The vocabulary of the statements about [loadInfo] *)

(** The error a lookup is counted as having failed with: any error of the
    preferred-method lookup, and any error but its own sentinel for the two
    others. *)
Definition failureMethod : option error :=
  (LoadPreferred2FAMethod storageProvider username).2.

Definition failureU2F : option error :=
  match (LoadU2FDeviceHandle storageProvider username).2 with
  | Some err => if decide (err = ErrNoU2FDeviceHandle) then None else Some err
  | None => None
  end.

Definition failureTOTP : option error :=
  match (LoadTOTPSecret storageProvider username).2 with
  | Some err => if decide (err = ErrNoTOTPSecret) then None else Some err
  | None => None
  end.

Definition failures : list error :=
  option_list failureMethod ++ option_list failureU2F ++ option_list failureTOTP.

(** The value the first closure assigns to [Method], when the lookup gave
    [method]; [None] where the index expression panics. *)
Definition methodChosen (method : string) : option string :=
  if decide (method = "") then PossibleMethods !! 0%nat else Some method.

(** How often a schedule lets a goroutine run. No goroutine has more than
    five steps before it exits, so a schedule that runs each of them five
    times runs them all to their end. *)
Definition runs (g : goroutine) (sched : list goroutine) : nat :=
  length (filter (fun x => x = g) sched).

Definition complete (sched : list goroutine) : Prop :=
  forall g, 5 <= runs g sched.

(** The steps a goroutine has left, at most. *)
Definition remaining {A : Type} (p : pc A) : nat :=
  match p with
  | AtCall => 5
  | AtRead _ => 4
  | AtAppend _ _ => 3
  | AtLog _ => 2
  | AtStore _ => 2
  | AtDone => 1
  | Exited | Panicked => 0
  end.

Definition remainingOf (g : goroutine) (m : machine) : nat :=
  match g with
  | GMethod => remaining (pcMethod m)
  | GU2F => remaining (pcU2F m)
  | GTOTP => remaining (pcTOTP m)
  end.

(** A goroutine that has not yet assigned [errors]. *)
Definition beforeAppend {A : Type} (p : pc A) : bool :=
  match p with
  | AtCall | AtRead _ | AtAppend _ _ => true
  | _ => false
  end.

Definition beforeAppendOf (g : goroutine) (m : machine) : bool :=
  match g with
  | GMethod => beforeAppend (pcMethod m)
  | GU2F => beforeAppend (pcU2F m)
  | GTOTP => beforeAppend (pcTOTP m)
  end.

Definition failureOf (g : goroutine) : option error :=
  match g with
  | GMethod => failureMethod
  | GU2F => failureU2F
  | GTOTP => failureTOTP
  end.

(** [err] is appended at some point of the run: after some prefix of the
    schedule it is the last element of [errors]. *)
Definition appendedAlong (sched : list goroutine) (m : machine) (err : error) : Prop :=
  exists sched1 sched2,
    sched = sched1 ++ sched2 /\ last (errors (mem (exec sched1 m))) = Some err.

(** *** Invariants of the interleavings *)

(** The preferences [loadInfo] was called with. *)
Variable prefs0 : UserPreferences.

(** A goroutine whose [wg.Done()] has not run yet holds one unit of the wait
    group. *)
Definition live {A : Type} (p : pc A) : nat :=
  match p with Exited | Panicked => 0 | _ => 1 end.

(** The error a goroutine is busy reporting came from its lookup, and the
    slice it read held only errors of the lookups. *)
Definition reporting {A : Type} (failure : option error) (p : pc A) : Prop :=
  match p with
  | AtRead err | AtLog err => failure = Some err
  | AtAppend err seen => failure = Some err /\ seen ⊆ failures
  | _ => True
  end.

(** Once its report is made, the slice is not empty and the log has the
    error. *)
Definition reported (failure : option error) (s : shared) : Prop :=
  forall err, failure = Some err -> errors s <> [] /\ LogError err ∈ logger s.

Definition afterAppend {A : Type} (p : pc A) (s : shared) : Prop :=
  match p with
  | AtLog _ => errors s <> []
  | _ => True
  end.

Definition invMethod (p : pc string) (s : shared) : Prop :=
  reporting failureMethod p /\ afterAppend p s /\
  match p with
  | AtCall | AtRead _ | AtAppend _ _ | AtLog _ =>
      Method (preferences s) = Method prefs0
  | AtStore v =>
      LoadPreferred2FAMethod storageProvider username = (v, None)
      /\ Method (preferences s) = Method prefs0
  | AtDone | Exited =>
      reported failureMethod s /\
      match LoadPreferred2FAMethod storageProvider username with
      | (_, Some _) => Method (preferences s) = Method prefs0
      | (method, None) => methodChosen method = Some (Method (preferences s))
      end
  | Panicked =>
      exists method,
        LoadPreferred2FAMethod storageProvider username = (method, None)
        /\ methodChosen method = None
  end.

Definition invU2F (p : pc unit) (s : shared) : Prop :=
  reporting failureU2F p /\ afterAppend p s /\
  match p with
  | AtCall | AtRead _ | AtAppend _ _ | AtLog _ =>
      HasU2F (preferences s) = HasU2F prefs0
  | AtStore _ =>
      (LoadU2FDeviceHandle storageProvider username).2 = None
      /\ HasU2F (preferences s) = HasU2F prefs0
  | AtDone | Exited =>
      reported failureU2F s /\
      match (LoadU2FDeviceHandle storageProvider username).2 with
      | Some _ => HasU2F (preferences s) = HasU2F prefs0
      | None => HasU2F (preferences s) = true
      end
  | Panicked => False
  end.

Definition invTOTP (p : pc unit) (s : shared) : Prop :=
  reporting failureTOTP p /\ afterAppend p s /\
  match p with
  | AtCall | AtRead _ | AtAppend _ _ | AtLog _ =>
      HasTOTP (preferences s) = HasTOTP prefs0
  | AtStore _ =>
      (LoadTOTPSecret storageProvider username).2 = None
      /\ HasTOTP (preferences s) = HasTOTP prefs0
  | AtDone | Exited =>
      reported failureTOTP s /\
      match (LoadTOTPSecret storageProvider username).2 with
      | Some _ => HasTOTP (preferences s) = HasTOTP prefs0
      | None => HasTOTP (preferences s) = true
      end
  | Panicked => False
  end.

Record Inv (m : machine) : Prop := {
  inv_method : invMethod (pcMethod m) (mem m);
  inv_u2f : invU2F (pcU2F m) (mem m);
  inv_totp : invTOTP (pcTOTP m) (mem m);
  inv_wg : wg (mem m) = live (pcMethod m) + live (pcU2F m) + live (pcTOTP m);
  inv_errors : errors (mem m) ⊆ failures
}.

(** What a step of another goroutine may do to the memory, as far as the
    invariant of a goroutine depends on it: the slice stays non-empty once
    it is, and the log only grows. *)
Definition grows (s s' : shared) : Prop :=
  (errors s <> [] -> errors s' <> []) /\
  (forall x, x ∈ logger s -> x ∈ logger s').

End LoadInfo.

(** ** The handlers *)

(** What a handler does to the request context: [ctx.Error(err, message)],
    [ctx.SetJSONBody(value)] and [ctx.ReplyOK()] are methods of package
    middlewares; a handler's answer is recorded as the calls it makes on
    them, with their arguments. *)
Inductive reply : Type :=
| ReplyError (err : error) (message : string)
| ReplyJSONBody (body : UserPreferences)
| ReplyOK.

#[global] Instance reply_eq_dec : EqDecision reply.
Proof. solve_decision. Defined.


(** [middlewares.AutheliaCtx], as far as the two handlers use it: the user of
    the session, the storage provider, the body of the request, the logger,
    the replies made so far and the calls made to [SavePreferred2FAMethod]
    (user name, method). *)
Record AutheliaCtx : Type := {
  sessionUsername : string;
  StorageProvider : Provider;
  requestBody : string;
  Logger : list logEntry;
  replies : list reply;
  saves : list (string * string)
}.

Definition ctx_reply (r : reply) (ctx : AutheliaCtx) : AutheliaCtx :=
  {| sessionUsername := sessionUsername ctx; StorageProvider := StorageProvider ctx;
     requestBody := requestBody ctx; Logger := Logger ctx;
     replies := replies ctx ++ [r]; saves := saves ctx |}.
Definition ctx_log (l : list logEntry) (ctx : AutheliaCtx) : AutheliaCtx :=
  {| sessionUsername := sessionUsername ctx; StorageProvider := StorageProvider ctx;
     requestBody := requestBody ctx; Logger := l;
     replies := replies ctx; saves := saves ctx |}.
Definition ctx_save (u m : string) (ctx : AutheliaCtx) : AutheliaCtx :=
  {| sessionUsername := sessionUsername ctx; StorageProvider := StorageProvider ctx;
     requestBody := requestBody ctx; Logger := Logger ctx;
     replies := replies ctx; saves := saves ctx ++ [(u, m)] |}.

(** [MethodBody], the selected 2FA method. *)
Record MethodBody : Type := { BodyMethod : string }.

(** Go's [strings.Join]. *)
Fixpoint Join (elems : list string) (sep : string) : string :=
  match elems with
  | [] => ""
  | [e] => e
  | e :: rest => e +:+ sep +:+ Join rest sep
  end.

(** Modelled from the spec: [utils.IsStringInSlice] belongs to package
    utils; the method is validated "against the closed set of supported
    methods", a membership test. *)
Definition IsStringInSlice (needle : string) (haystack : list string) : bool :=
  bool_decide (needle ∈ haystack).

(** The zero value [UserPreferences{}]. *)
Definition UserPreferences_zero : UserPreferences :=
  {| Method := ""; HasU2F := false; HasTOTP := false |}.

(** JSON values, for the body of the answer. *)
#[warnings="-register-all"] Inductive json : Type :=
| JString (s : string)
| JBool (b : bool)
| JObject (fields : list (string * json)).

(** Modelled from the spec: the JSON tags of [UserPreferences] are declared
    with the type, in another file of the package; the answer is "JSON
    {method, has_totp, has_u2f}". *)
Definition UserPreferences_json (p : UserPreferences) : json :=
  JObject [("method", JString (Method p));
           ("has_totp", JBool (HasTOTP p));
           ("has_u2f", JBool (HasU2F p))].

Section Handlers.

Variable PossibleMethods : list string.

(** The constant [operationFailedMessage] of package handlers, declared in
    another file of the package. *)
Variable operationFailedMessage : string.

(** The texts of the two sentinel errors, declared in package storage. *)
Variable textNoU2FDeviceHandle textNoTOTPSecret : string.

(** [ctx.ParseBody(&bodyJSON)]: decoding and validation of the request body
    into the struct it is given, by package middlewares. *)
Variable ParseBody : string -> MethodBody -> MethodBody * option error.

(** The method [Error()] of an error, as [%s] prints it. *)
Definition Error (err : error) : string :=
  match err with
  | ErrNoU2FDeviceHandle => textNoU2FDeviceHandle
  | ErrNoTOTPSecret => textNoTOTPSecret
  | errorString s => s
  end.

(** [UserInfoGet], under a schedule of the goroutines of [loadInfo]. *)
Definition UserInfoGet (sched : list goroutine) (ctx : AutheliaCtx) : option AutheliaCtx :=
  match loadInfo PossibleMethods (sessionUsername ctx) (StorageProvider ctx)
                 sched UserPreferences_zero (Logger ctx) with
  | None => None
  | Some r =>
      let ctx := ctx_log (logged r) ctx in
      if bool_decide (0 < length (returned r))%nat then
        Some (ctx_reply (ReplyError (errorString "Unable to load user information")
                                    operationFailedMessage) ctx)
      else Some (ctx_reply (ReplyJSONBody (result r)) ctx)
  end.

(** [MethodPreferencePost]. *)
Definition MethodPreferencePost (ctx : AutheliaCtx) : AutheliaCtx :=
  match ParseBody (requestBody ctx) {| BodyMethod := "" |} with
  | (_, Some err) => ctx_reply (ReplyError err operationFailedMessage) ctx
  | (bodyJSON, None) =>
      if negb (IsStringInSlice (BodyMethod bodyJSON) PossibleMethods) then
        ctx_reply
          (ReplyError
             (errorString ("Unknown method '" +:+ BodyMethod bodyJSON
                           +:+ "', it should be one of "
                           +:+ Join PossibleMethods ", "))
             operationFailedMessage) ctx
      else
        let ctx :=
          ctx_log (Logger ctx ++
                   [LogDebug ("Save new preferred 2FA method of user "
                              +:+ sessionUsername ctx +:+ " to "
                              +:+ BodyMethod bodyJSON)]) ctx in
        let err := SavePreferred2FAMethod (StorageProvider ctx)
                     (sessionUsername ctx) (BodyMethod bodyJSON) in
        let ctx := ctx_save (sessionUsername ctx) (BodyMethod bodyJSON) ctx in
        match err with
        | Some err =>
            ctx_reply
              (ReplyError
                 (errorString ("Unable to save new preferred 2FA method: " +:+ Error err))
                 operationFailedMessage) ctx
        | None => ctx_reply ReplyOK ctx
        end
  end.

End Handlers.

(** ** oidc/keys.go: the key manager *)

Module oidc.

(** [rsa.PublicKey] and [rsa.PrivateKey]. *)
Record rsaPublicKey : Type := { N : Z; E : Z }.
Record rsaPrivateKey : Type := { PublicKey : rsaPublicKey; D : Z; Primes : list Z }.

#[global] Instance rsaPublicKey_eq_dec : EqDecision rsaPublicKey.
Proof. solve_decision. Defined.
#[global] Instance rsaPrivateKey_eq_dec : EqDecision rsaPrivateKey.
Proof. solve_decision. Defined.

(** [jose.JSONWebKey] and [jose.JSONWebKeySet]. *)
Record JSONWebKey : Type := {
  Key : rsaPublicKey;
  KeyID : string;
  Algorithm : string;
  Use : string
}.
Record JSONWebKeySet : Type := { Keys : list JSONWebKey }.

#[global] Instance JSONWebKey_eq_dec : EqDecision JSONWebKey.
Proof. solve_decision. Defined.

(** [RS256JWTStrategy]: the key id and the private key of the wrapped fosite
    strategy. *)
Record RS256JWTStrategy : Type := {
  keyID : string;
  PrivateKey : option rsaPrivateKey
}.

(** [KeyManager]; a nil strategy is [None]. *)
Record KeyManager : Type := {
  activeKeyID : string;
  keys : gmap string rsaPrivateKey;
  keySet : JSONWebKeySet;
  strategy : option RS256JWTStrategy
}.

(** A Go result [(value, err)] of which exactly one is nil: [inl value] or
    [inr err]. *)
Definition orError (A : Type) : Type := A + error.

(** [JSONWebKeySet.Key(kid)] of go-jose: the keys with that id. *)
Definition KeySet_Key (ks : JSONWebKeySet) (kid : string) : list JSONWebKey :=
  filter (fun k => KeyID k = kid) (Keys ks).

Definition Strategy (m : KeyManager) : option RS256JWTStrategy := strategy m.

Definition GetKeySet (m : KeyManager) : JSONWebKeySet := keySet m.

(** [GetActiveWebKey]; its third case returns a key and an error. *)
Definition GetActiveWebKey (m : KeyManager) : option JSONWebKey * option error :=
  let webKeys := KeySet_Key (keySet m) (activeKeyID m) in
  match webKeys with
  | [k] => (Some k, None)
  | [] => (None, Some (errorString "could not find a key with the active key id"))
  | k :: _ => (Some k, Some (errorString "multiple keys with the same key id"))
  end.

Definition GetActiveKeyID (m : KeyManager) : string := activeKeyID m.

Definition GetActiveKey (m : KeyManager) : orError rsaPublicKey :=
  match keys m !! activeKeyID m with
  | Some key => inl (PublicKey key)
  | None => inr (errorString "failed to retrieve active key")
  end.

Definition GetActivePrivateKey (m : KeyManager) : orError rsaPrivateKey :=
  match keys m !! activeKeyID m with
  | Some key => inl key
  | None => inr (errorString "failed to retrieve active key")
  end.

(** [SetKey] and [NewRS256JWTStrategy], which never fails. *)
Definition SetKey (s : RS256JWTStrategy) (id : string) (key : rsaPrivateKey) : RS256JWTStrategy :=
  {| keyID := id; PrivateKey := Some key |}.

Definition NewRS256JWTStrategy (id : string) (key : rsaPrivateKey) : orError RS256JWTStrategy :=
  let strategy := {| keyID := ""; PrivateKey := None |} in
  inl (SetKey strategy id key).

Section Keys.

(** [JSONWebKey.Thumbprint(crypto.SHA256)] of go-jose. *)
Variable Thumbprint : JSONWebKey -> orError (list Byte.byte).

(** [utils.ParseRsaPrivateKeyFromPemStr] of package utils. *)
Variable ParseRsaPrivateKeyFromPemStr : string -> orError rsaPrivateKey.

(** [AddActiveKey]: the manager after the call, and what the call returns. *)
Definition AddActiveKey (m : KeyManager) (key : rsaPrivateKey)
  : KeyManager * orError JSONWebKey :=
  let wk := {| Key := PublicKey key; KeyID := ""; Algorithm := "RS256"; Use := "sig" |} in
  match Thumbprint wk with
  | inr err => (m, inr err)
  | inl keyID =>
      let strKeyID := String.string_of_list_byte keyID in
      match keys m !! strKeyID with
      | Some _ =>
          (m, inr (errorString ("key id " +:+ strKeyID +:+ " already exists")))
      | None =>
          let wk := {| Key := Key wk; KeyID := strKeyID;
                       Algorithm := Algorithm wk; Use := Use wk |} in
          ({| activeKeyID := activeKeyID m;
              keys := <[strKeyID := key]> (keys m);
              keySet := {| Keys := Keys (keySet m) ++ [wk] |};
              strategy := strategy m |},
           inl wk)
      end
  end.

(** [AddActiveKeyData]. When [AddActiveKey] fails the source returns the
    parsed key next to the error; no caller looks at it. *)
Definition AddActiveKeyData (m : KeyManager) (data : string)
  : KeyManager * orError (rsaPrivateKey * JSONWebKey) :=
  match ParseRsaPrivateKeyFromPemStr data with
  | inr err => (m, inr err)
  | inl key =>
      match AddActiveKey m key with
      | (m', inl webKey) => (m', inl (key, webKey))
      | (m', inr err) => (m', inr err)
      end
  end.

(** [NewKeyManager], given [configuration.IssuerPrivateKey]. *)
Definition NewKeyManager (IssuerPrivateKey : string) : orError KeyManager :=
  let manager := {| activeKeyID := ""; keys := ∅;
                    keySet := {| Keys := [] |}; strategy := None |} in
  match AddActiveKeyData manager IssuerPrivateKey with
  | (_, inr err) => inr err
  | (manager, inl (key, webKey)) =>
      match NewRS256JWTStrategy (KeyID webKey) key with
      | inr err => inr err
      | inl strategy' =>
          inl {| activeKeyID := activeKeyID manager; keys := keys manager;
                 keySet := keySet manager; strategy := Some strategy' |}
      end
  end.

End Keys.

(** [RS256JWTStrategy.KeyID] and [RS256JWTStrategy.GetPublicKeyID]. *)
Definition StrategyKeyID (s : RS256JWTStrategy) : string := keyID s.

Definition GetPublicKeyID (s : RS256JWTStrategy) : string * option error :=
  (keyID s, None).

(** The manager as [NewKeyManager] has it before it adds the key. *)
Definition emptyManager : KeyManager :=
  {| activeKeyID := ""; keys := ∅; keySet := {| Keys := [] |}; strategy := None |}.

(** The web key [AddActiveKey] makes of a key and its id. *)
Definition webKeyOf (id : string) (key : rsaPrivateKey) : JSONWebKey :=
  {| Key := PublicKey key; KeyID := id; Algorithm := "RS256"; Use := "sig" |}.

(** The key set and the map of keys tell the same story: no id is listed
    twice, every web key listed is the web key of the private key stored
    under its id, and every id of the map is listed. *)
Definition consistent (m : KeyManager) : Prop :=
  NoDup (KeyID <$> Keys (keySet m))
  /\ (forall wk, wk ∈ Keys (keySet m) ->
        exists key, keys m !! KeyID wk = Some key /\ wk = webKeyOf (KeyID wk) key)
  /\ (forall kid key, keys m !! kid = Some key ->
        exists wk, wk ∈ Keys (keySet m) /\ KeyID wk = kid).

(** A key and stand-ins for the two library functions, for the examples:
    the thumbprint of a key is a text made of its modulus, and every
    non-empty text parses to the same key. *)
Definition exampleKey : rsaPrivateKey :=
  {| PublicKey := {| N := 3233; E := 17 |}; D := 2753; Primes := [61; 53] |}%Z.

Definition thumbprintOfModulus (wk : JSONWebKey) : orError (list Byte.byte) :=
  inl (String.list_byte_of_string ("sha256:" +:+ pretty (N (Key wk)))).

Definition parseExample (data : string) : orError rsaPrivateKey :=
  if decide (data = "") then inr (errorString "failed to decode PEM block")
  else inl exampleKey.

End oidc.

(** ** The access-control engine *)

Module AccessControl.

(** Modelled from the spec: the access-control engine has no source file in
    this development; its data model follows section 3 of the specification
    and its algorithm section 4.1. PolicyLevel: "ordered enum {bypass,
    one_factor, two_factor, deny}". *)
Inductive PolicyLevel : Type := bypass | one_factor | two_factor | deny.

#[global] Instance PolicyLevel_eq_dec : EqDecision PolicyLevel.
Proof. solve_decision. Defined.

(** Modelled from the spec: "subject: criterion (any | user:<name> |
    group:<name>)". *)
Inductive SubjectCriterion : Type :=
| AnySubject
| UserNamed (name : string)
| GroupNamed (name : string).

(** Modelled from the spec: "networks: [CIDR]"; an IPv4 range, as an address
    and the number of leading bits that count. *)
Record CIDR : Type := { address : Z; ones : nat }.

(** Modelled from the spec: "Rule: {domain: pattern, resources:
    [path-pattern], subject: criterion, networks: [CIDR] (default any),
    methods: [HTTP-method] (default any), policy: PolicyLevel}"; an empty list
    is a criterion that is not present. *)
Record Rule : Type := {
  domain : string;
  resources : list string;
  subject : SubjectCriterion;
  networks : list CIDR;
  methods : list string;
  policy : PolicyLevel
}.

(** Modelled from the spec: "RuleSet: ordered sequence of Rule plus
    defaultPolicy". *)
Record RuleSet : Type := {
  rules : list Rule;
  defaultPolicy : PolicyLevel
}.

(** The caller: the authenticated user and the groups the user belongs
    to. *)
Record Subject : Type := { userName : string; groups : list string }.

(** The resource asked for: the host and the path. *)
Record Resource : Type := { host : string; path : string }.

(** Whether a string ends with another. *)
Definition hasSuffix (s suffix : string) : bool :=
  let n := String.length s in
  let k := String.length suffix in
  (k <=? n)%nat && bool_decide (String.substring (n - k) k s = suffix).

Section Engine.

(** The language of path patterns, which the specification leaves open. *)
Variable pathMatches : string -> string -> bool.

(** Modelled from the spec: "domain match (exact host or wildcard subdomain
    match)"; a pattern that starts with a star matches the hosts that end
    with the rest of it. *)
Definition domainMatches (pattern h : string) : bool :=
  match pattern with
  | String "*"%char suffix => hasSuffix h suffix
  | _ => bool_decide (pattern = h)
  end.

(** Modelled from the spec: "request path tested against each configured
    path pattern, any pattern matching is sufficient"; a criterion that is
    not present matches. *)
Definition resourceMatches (patterns : list string) (p : string) : bool :=
  match patterns with
  | [] => true
  | _ => existsb (fun pattern => pathMatches pattern p) patterns
  end.

(** Modelled from the spec: "any always matches; user:<name> matches exact
    authenticated username; group:<name> matches if the user belongs to that
    group". *)
Definition subjectMatches (c : SubjectCriterion) (s : Subject) : bool :=
  match c with
  | AnySubject => true
  | UserNamed name => bool_decide (userName s = name)
  | GroupNamed name => bool_decide (name ∈ groups s)
  end.

(** Modelled from the spec: "the caller's address falls in" a CIDR range:
    the leading bits of the two addresses agree. *)
Definition inCIDR (ip : Z) (c : CIDR) : bool :=
  let shift := Z.of_nat (32 - ones c) in
  bool_decide (Z.shiftr ip shift = Z.shiftr (address c) shift).

(** Modelled from the spec: "any, or the caller's address falls in one of the
    listed CIDR ranges". *)
Definition networkMatches (ranges : list CIDR) (ip : Z) : bool :=
  match ranges with
  | [] => true
  | _ => existsb (inCIDR ip) ranges
  end.

(** Modelled from the spec: "any, or caller's HTTP method is in the listed
    set". *)
Definition methodMatches (allowed : list string) (m : string) : bool :=
  match allowed with
  | [] => true
  | _ => bool_decide (m ∈ allowed)
  end.

(** Modelled from the spec: "a rule matches iff every present criterion
    matches the request". *)
Definition ruleMatches (s : Subject) (r : Resource) (ip : Z) (m : string)
    (rule : Rule) : bool :=
  domainMatches (domain rule) (host r)
  && resourceMatches (resources rule) (path r)
  && subjectMatches (subject rule) s
  && networkMatches (networks rule) ip
  && methodMatches (methods rule) m.

(** Modelled from the spec: "iterate rules in their configured order ... The
    first fully-matching rule's policy is returned ... If no rule matches,
    the RuleSet's defaultPolicy is returned." *)
Fixpoint evaluateRules (rs : list Rule) (default : PolicyLevel)
    (s : Subject) (r : Resource) (ip : Z) (m : string) : PolicyLevel :=
  match rs with
  | [] => default
  | rule :: rest =>
      if ruleMatches s r ip m rule then policy rule
      else evaluateRules rest default s r ip m
  end.

(** Modelled from the spec: "Evaluate(subject, resourcePath, network, method)
    -> PolicyLevel". *)
Definition Evaluate (set : RuleSet) (s : Subject) (r : Resource) (ip : Z)
    (m : string) : PolicyLevel :=
  evaluateRules (rules set) (defaultPolicy set) s r ip m.

End Engine.

(** Rules and a caller for the examples; a path pattern is taken to be a
    prefix of the paths it matches. *)
Definition prefixPattern (pattern p : string) : bool := String.prefix pattern p.

Definition wildcardRule : Rule :=
  {| domain := "*.example.com"; resources := []; subject := AnySubject;
     networks := []; methods := []; policy := two_factor |}.

Definition publicRule : Rule :=
  {| domain := "public.example.com"; resources := []; subject := AnySubject;
     networks := []; methods := []; policy := bypass |}.

Definition exampleRules : RuleSet :=
  {| rules := [wildcardRule; publicRule]; defaultPolicy := deny |}.

Definition john : Subject := {| userName := "john"; groups := ["dev"] |}.

Definition publicHome : Resource := {| host := "public.example.com"; path := "/" |}.

End AccessControl.

(** ** configuration: the sources of the configuration *)

Module configuration.

Section Sources.

(** [koanf.Koanf] of the koanf library, the instance [koanf.New(".")] makes,
    and the loading of a YAML file into an instance
    ([Load(file.Provider(path), yaml.Parser())]). *)
Variable Koanf : Type.
Variable koanfNew : string -> Koanf.
Variable koanfLoadYAML : Koanf -> string -> Koanf * option error.

(** [schema.StructValidator] and [schema.NewStructValidator()]. *)
Variable StructValidator : Type.
Variable NewStructValidator : StructValidator.

(** The three kinds of source, with the fields their constructors set; a nil
    validator is [None]. *)
Record YAMLFileSource : Type := { yamlKoanf : Koanf; yamlPath : string }.
Record EnvironmentSource : Type := { envKoanf : Koanf }.
Record SecretsSource : Type := {
  secretsKoanf : Koanf;
  secretsValidator : option StructValidator
}.

(** A value of the interface [Source]. *)
Inductive Source : Type :=
| OfYAMLFile (s : YAMLFileSource)
| OfEnvironment (s : EnvironmentSource)
| OfSecrets (s : SecretsSource).

Definition NewYAMLFileSource (path : string) : YAMLFileSource :=
  {| yamlKoanf := koanfNew "."; yamlPath := path |}.

(** [NewYAMLFileSources]: the loop over the paths, appending to the slice it
    returns. *)
Fixpoint appendYAMLFileSources (paths : list string) (sources : list YAMLFileSource)
  : list YAMLFileSource :=
  match paths with
  | [] => sources
  | path :: rest => appendYAMLFileSources rest (sources ++ [NewYAMLFileSource path])
  end.

Definition NewYAMLFileSources (paths : list string) : list YAMLFileSource :=
  appendYAMLFileSources paths [].

Definition NewEnvironmentSource : EnvironmentSource :=
  {| envKoanf := koanfNew "." |}.

Definition NewSecretsSource : SecretsSource :=
  {| secretsKoanf := koanfNew "."; secretsValidator := Some NewStructValidator |}.

(** The method [Name] of the three kinds of source. *)
Definition Name (source : Source) : string :=
  match source with
  | OfYAMLFile s => "yaml file(" +:+ yamlPath s +:+ ")"
  | OfEnvironment _ => "environment"
  | OfSecrets _ => "secrets"
  end.

(** The method [Validator]: nil for the files and the environment. *)
Definition Validator (source : Source) : option StructValidator :=
  match source with
  | OfYAMLFile _ => None
  | OfEnvironment _ => None
  | OfSecrets s => secretsValidator s
  end.

(** [YAMLFileSource.Load]: the source after the call and the error. *)
Definition LoadYAMLFile (s : YAMLFileSource) : YAMLFileSource * option error :=
  if decide (yamlPath s = "") then
    (s, Some (errorString "invalid yaml path source configuration"))
  else
    let '(k, err) := koanfLoadYAML (yamlKoanf s) (yamlPath s) in
    ({| yamlKoanf := k; yamlPath := yamlPath s |}, err).

(** [NewDefaultSources]: the loop that copies the file sources into a slice
    of [Source], then the two appends. *)
Fixpoint appendSources (fileSources : list YAMLFileSource) (sources : list Source)
  : list Source :=
  match fileSources with
  | [] => sources
  | source :: rest => appendSources rest (sources ++ [OfYAMLFile source])
  end.

Definition NewDefaultSources (filePaths : list string) : list Source :=
  let fileSources := NewYAMLFileSources filePaths in
  let sources := appendSources fileSources [] in
  let sources := sources ++ [OfEnvironment NewEnvironmentSource] in
  sources ++ [OfSecrets NewSecretsSource].

End Sources.

End configuration.

(** ** Stores, schedules and requests used in the examples *)

Definition appending {A : Type} (p : pc A) : bool :=
  match p with
  | AtRead _ | AtAppend _ _ | AtLog _ => true
  | _ => false
  end.

Definition threeMethods : list string := ["totp"; "u2f"; "mobile_push"].

(** Each goroutine in turn, five times over. *)
Definition roundRobin : list goroutine :=
  concat (replicate 5 [GMethod; GU2F; GTOTP]).

(** The U2F and the TOTP goroutine both read [errors] before either of them
    assigns it. *)
Definition racing : list goroutine :=
  [GU2F; GTOTP; GU2F; GTOTP; GU2F; GTOTP] ++ roundRobin.

(** Each goroutine run to its end before the next one starts. *)
Definition oneByOne : list goroutine :=
  replicate 5 GU2F ++ replicate 5 GTOTP ++ replicate 5 GMethod.

(** The three goroutines in a given order, each run to its end before the
    next one starts. *)
Definition inTurn (g1 g2 g3 : goroutine) : list goroutine :=
  replicate 5 g1 ++ replicate 5 g2 ++ replicate 5 g3.

(** A user with a preferred method and no second factor registered. *)
Definition storeNothingRegistered : Provider :=
  {| LoadPreferred2FAMethod := fun _ => ("totp", None);
     LoadU2FDeviceHandle := fun _ => ([], [], Some ErrNoU2FDeviceHandle);
     LoadTOTPSecret := fun _ => ("", Some ErrNoTOTPSecret);
     SavePreferred2FAMethod := fun _ _ => None |}.

(** The U2F lookup fails, the two others succeed. *)
Definition storeU2FDown : Provider :=
  {| LoadPreferred2FAMethod := fun _ => ("u2f", None);
     LoadU2FDeviceHandle := fun _ => ([], [], Some (errorString "u2f: connection refused"));
     LoadTOTPSecret := fun _ => ("JBSWY3DPEHPK3PXP", None);
     SavePreferred2FAMethod := fun _ _ => None |}.

(** The U2F and the TOTP lookup both fail. *)
Definition storeTwoDown : Provider :=
  {| LoadPreferred2FAMethod := fun _ => ("totp", None);
     LoadU2FDeviceHandle := fun _ => ([], [], Some (errorString "u2f: connection refused"));
     LoadTOTPSecret := fun _ => ("", Some (errorString "totp: connection refused"));
     SavePreferred2FAMethod := fun _ _ => Some (errorString "disk full") |}.

(** No preferred method saved yet. *)
Definition storeNoPreference : Provider :=
  {| LoadPreferred2FAMethod := fun _ => ("", None);
     LoadU2FDeviceHandle := fun _ => ([], [], None);
     LoadTOTPSecret := fun _ => ("", Some ErrNoTOTPSecret);
     SavePreferred2FAMethod := fun _ _ => None |}.

(** A stand-in for the decoder of the request body: the body is the name
    of the method, and an empty body does not parse. *)
Definition parseRaw (body : string) (into : MethodBody) : MethodBody * option error :=
  if decide (body = "") then (into, Some (errorString "unexpected end of JSON input"))
  else ({| BodyMethod := body |}, None).

(** A request of user john. *)
Definition requestOf (store : Provider) (body : string) : AutheliaCtx :=
  {| sessionUsername := "john"; StorageProvider := store; requestBody := body;
     Logger := []; replies := []; saves := [] |}.

(** ** Accounting for the errors appended and logged *)

Section Accounting.

Variable username : string.
Variable storageProvider : Provider.

(** The log [loadInfo] was called with. *)
Variable log0 : list logEntry.

(** A goroutine that has not yet called [logger.Error]. *)
Definition beforeLog {A : Type} (p : pc A) : bool :=
  match p with
  | AtCall | AtRead _ | AtAppend _ _ | AtLog _ => true
  | _ => false
  end.

(** What a goroutine has put into [errors], and into the log, so far. *)
Definition appendedSlot {A : Type} (failure : option error) (p : pc A) : list error :=
  if beforeAppend p then [] else option_list failure.

Definition loggedSlot {A : Type} (failure : option error) (p : pc A) : list error :=
  if beforeLog p then [] else option_list failure.

Definition appendedBy (m : machine) : list error :=
  appendedSlot (failureMethod username storageProvider) (pcMethod m)
  ++ appendedSlot (failureU2F username storageProvider) (pcU2F m)
  ++ appendedSlot (failureTOTP username storageProvider) (pcTOTP m).

Definition loggedBy (m : machine) : list error :=
  loggedSlot (failureMethod username storageProvider) (pcMethod m)
  ++ loggedSlot (failureU2F username storageProvider) (pcU2F m)
  ++ loggedSlot (failureTOTP username storageProvider) (pcTOTP m).

(** What one step of a goroutine does to [errors] and to the log: nothing,
    the assignment of the extended slice, or the call of the logger. *)
Inductive effect {A : Type} (failure : option error)
    (s : shared) (p : pc A) (s' : shared) (p' : pc A) : Prop :=
| effect_quiet :
    errors s' = errors s -> logger s' = logger s ->
    appendedSlot failure p' = appendedSlot failure p ->
    loggedSlot failure p' = loggedSlot failure p ->
    (forall err seen, p' = AtAppend err seen ->
                      p = AtAppend err seen \/ seen = errors s) ->
    effect failure s p s' p'
| effect_append err seen :
    p = AtAppend err seen -> p' = AtLog err -> failure = Some err ->
    errors s' = seen ++ [err] -> logger s' = logger s ->
    effect failure s p s' p'
| effect_log err :
    p = AtLog err -> p' = AtDone -> failure = Some err ->
    errors s' = errors s -> logger s' = logger s ++ [LogError err] ->
    effect failure s p s' p'.

(** The slice holds, each at most once, errors of goroutines that have
    appended, and so does every slice a goroutine has read; the log holds
    what it held at the call and, each exactly once, the errors of the
    goroutines that have logged. *)
Record Accounting (m : machine) : Prop := {
  acc_errors : errors (mem m) ⊆+ appendedBy m;
  acc_method : forall err seen, pcMethod m = AtAppend err seen -> seen ⊆+ appendedBy m;
  acc_u2f : forall err seen, pcU2F m = AtAppend err seen -> seen ⊆+ appendedBy m;
  acc_totp : forall err seen, pcTOTP m = AtAppend err seen -> seen ⊆+ appendedBy m;
  acc_logger : logger (mem m) ≡ₚ log0 ++ (LogError <$> loggedBy m)
}.

End Accounting.

(** * Properties *)

(** ** The interleavings of loadInfo *)

Section LoadInfoFacts.

Variable PossibleMethods : list string.
Variable username : string.
Variable storageProvider : Provider.
Variable prefs0 : UserPreferences.

Local Abbreviation stepMethod := (step_method PossibleMethods username storageProvider).
Local Abbreviation stepU2F := (step_u2f username storageProvider).
Local Abbreviation stepTOTP := (step_totp username storageProvider).
Local Abbreviation step1 := (step PossibleMethods username storageProvider).
Local Abbreviation run := (exec PossibleMethods username storageProvider).
Local Abbreviation fails := (failures username storageProvider).
Local Abbreviation failMethod := (failureMethod username storageProvider).
Local Abbreviation failU2F := (failureU2F username storageProvider).
Local Abbreviation failTOTP := (failureTOTP username storageProvider).
Local Abbreviation INV := (Inv PossibleMethods username storageProvider prefs0).

Lemma grows_refl s : grows s s.
Proof. split; auto. Qed.

Lemma failureMethod_in err : failMethod = Some err -> err ∈ fails.
Proof. unfold failures. intros ->. set_solver. Qed.

Lemma failureU2F_in err : failU2F = Some err -> err ∈ fails.
Proof. unfold failures. intros ->. set_solver. Qed.

Lemma failureTOTP_in err : failTOTP = Some err -> err ∈ fails.
Proof. unfold failures. intros ->. set_solver. Qed.

(** *** What one step does to the memory *)

Lemma step_common_preferences {A} s (p : pc A) s' p' :
  step_common s p = (s', p') -> preferences s' = preferences s.
Proof.
  destruct p; simpl; try (intros [= <- <-]; reflexivity).
  destruct (wg s); intros [= <- <-]; reflexivity.
Qed.

Lemma step_common_grows {A} s (p : pc A) s' p' :
  step_common s p = (s', p') -> grows s s'.
Proof.
  destruct p; simpl; try (intros [= <- <-]; apply grows_refl).
  - intros [= <- <-]. split; simpl; [intros _ | auto].
    destruct seen; discriminate.
  - intros [= <- <-]. split; simpl; [auto | set_solver].
  - destruct (wg s); intros [= <- <-]; split; simpl; auto.
Qed.

Lemma step_method_grows s p s' p' : stepMethod s p = (s', p') -> grows s s'.
Proof.
  destruct p; try apply step_common_grows; simpl.
  - destruct (LoadPreferred2FAMethod _ _) as [? [?|]];
      intros [= <- <-]; split; simpl; auto.
  - case_decide; [destruct (PossibleMethods !! 0%nat); [|unfold panicking; destruct (wg s)]|];
      intros [= <- <-]; split; simpl; auto.
Qed.

Lemma step_u2f_grows s p s' p' : stepU2F s p = (s', p') -> grows s s'.
Proof.
  destruct p; try apply step_common_grows; simpl.
  - destruct (LoadU2FDeviceHandle _ _) as [[? ?] [?|]]; [case_decide|];
      intros [= <- <-]; split; simpl; auto.
  - intros [= <- <-]; split; simpl; auto.
Qed.

Lemma step_totp_grows s p s' p' : stepTOTP s p = (s', p') -> grows s s'.
Proof.
  destruct p; try apply step_common_grows; simpl.
  - destruct (LoadTOTPSecret _ _) as [? [?|]]; [case_decide|];
      intros [= <- <-]; split; simpl; auto.
  - intros [= <- <-]; split; simpl; auto.
Qed.

(** Each closure leaves the fields of the two others alone. *)
Lemma step_method_frame s p s' p' :
  stepMethod s p = (s', p') ->
  HasU2F (preferences s') = HasU2F (preferences s)
  /\ HasTOTP (preferences s') = HasTOTP (preferences s).
Proof.
  destruct p;
    try (intros H; rewrite (step_common_preferences s _ s' p' H); done); simpl.
  - destruct (LoadPreferred2FAMethod _ _) as [? [?|]]; intros [= <- <-]; done.
  - case_decide; [destruct (PossibleMethods !! 0%nat); [|unfold panicking; destruct (wg s)]|]; intros [= <- <-]; done.
Qed.

Lemma step_u2f_frame s p s' p' :
  stepU2F s p = (s', p') ->
  Method (preferences s') = Method (preferences s)
  /\ HasTOTP (preferences s') = HasTOTP (preferences s).
Proof.
  destruct p;
    try (intros H; rewrite (step_common_preferences s _ s' p' H); done); simpl.
  - destruct (LoadU2FDeviceHandle _ _) as [[? ?] [?|]]; [case_decide|];
      intros [= <- <-]; done.
  - intros [= <- <-]; done.
Qed.

Lemma step_totp_frame s p s' p' :
  stepTOTP s p = (s', p') ->
  Method (preferences s') = Method (preferences s)
  /\ HasU2F (preferences s') = HasU2F (preferences s).
Proof.
  destruct p;
    try (intros H; rewrite (step_common_preferences s _ s' p' H); done); simpl.
  - destruct (LoadTOTPSecret _ _) as [? [?|]]; [case_decide|];
      intros [= <- <-]; done.
  - intros [= <- <-]; done.
Qed.

(** *** The invariant of a goroutine under the steps of the others *)

Lemma reported_grows failure s s' :
  reported failure s -> grows s s' -> reported failure s'.
Proof. intros H [Hne Hlog] err Herr. destruct (H err Herr). split; auto. Qed.

Lemma afterAppend_grows {A} (p : pc A) s s' :
  afterAppend p s -> grows s s' -> afterAppend p s'.
Proof. intros H [Hne _]. destruct p; simpl in *; auto. Qed.

Lemma invMethod_stable p s s' :
  invMethod PossibleMethods username storageProvider prefs0 p s ->
  Method (preferences s') = Method (preferences s) -> grows s s' ->
  invMethod PossibleMethods username storageProvider prefs0 p s'.
Proof.
  intros (Hr & Ha & H) Heq Hg. unfold invMethod. rewrite Heq.
  split; [done|]. split; [by eapply afterAppend_grows|].
  destruct p; try done; destruct H as [H1 H2]; eauto using reported_grows.
Qed.

Lemma invU2F_stable p s s' :
  invU2F username storageProvider prefs0 p s ->
  HasU2F (preferences s') = HasU2F (preferences s) -> grows s s' ->
  invU2F username storageProvider prefs0 p s'.
Proof.
  intros (Hr & Ha & H) Heq Hg. unfold invU2F. rewrite Heq.
  split; [done|]. split; [by eapply afterAppend_grows|].
  destruct p; try done; destruct H as [H1 H2]; eauto using reported_grows.
Qed.

Lemma invTOTP_stable p s s' :
  invTOTP username storageProvider prefs0 p s ->
  HasTOTP (preferences s') = HasTOTP (preferences s) -> grows s s' ->
  invTOTP username storageProvider prefs0 p s'.
Proof.
  intros (Hr & Ha & H) Heq Hg. unfold invTOTP. rewrite Heq.
  split; [done|]. split; [by eapply afterAppend_grows|].
  destruct p; try done; destruct H as [H1 H2]; eauto using reported_grows.
Qed.

(** *** The invariant of a goroutine under its own steps *)

Lemma reported_log err s :
  errors s <> [] ->
  reported (Some err) (with_logger (logger s ++ [LogError err]) s).
Proof. intros Hne e [= <-]. split; [done|]. simpl. set_solver. Qed.

Lemma reported_none s : reported None s.
Proof. intros e [=]. Qed.

Lemma invMethod_step p s s' p' :
  invMethod PossibleMethods username storageProvider prefs0 p s ->
  errors s ⊆ fails -> live p <= wg s ->
  stepMethod s p = (s', p') ->
  invMethod PossibleMethods username storageProvider prefs0 p' s'.
Proof.
  unfold invMethod, failureMethod. intros (Hr & Ha & H) Hsub Hwg.
  destruct p; simpl in *.
  - destruct (LoadPreferred2FAMethod _ _) as [method [err|]] eqn:E;
      intros [= <- <-]; simpl; rewrite ?E; done.
  - intros [= <- <-]; done.
  - intros [= <- <-]; simpl. destruct Hr as [Hr _].
    split_and!; try done. by destruct seen.
  - intros [= <- <-]. split_and!; try done.
    + rewrite Hr. by apply reported_log.
    + destruct (LoadPreferred2FAMethod _ _) as [method [e|]]; done.
  - destruct H as [E H].
    case_decide as Hv;
      [destruct (PossibleMethods !! 0%nat) eqn:E0;
       [|unfold panicking; destruct (wg s); [simpl in Hwg; lia|]]|];
      intros [= <- <-]; simpl; rewrite ?E; simpl;
      split_and!; auto using reported_none.
    + unfold methodChosen. by rewrite decide_True.
    + exists v. split; [done|]. unfold methodChosen. by rewrite decide_True.
    + unfold methodChosen. by rewrite decide_False.
  - destruct (wg s); [simpl in Hwg; lia|]; intros [= <- <-]; done.
  - intros [= <- <-]; done.
  - intros [= <- <-]; done.
Qed.

Lemma invU2F_step p s s' p' :
  invU2F username storageProvider prefs0 p s ->
  errors s ⊆ fails -> live p <= wg s ->
  stepU2F s p = (s', p') ->
  invU2F username storageProvider prefs0 p' s'.
Proof.
  unfold invU2F, failureU2F. intros (Hr & Ha & H) Hsub Hwg.
  destruct p; simpl in *.
  - destruct (LoadU2FDeviceHandle _ _) as [[h k] [err|]] eqn:E; [case_decide|];
      intros [= <- <-]; simpl; rewrite ?E; simpl;
      rewrite ?decide_True, ?decide_False by done;
      split_and!; auto using reported_none.
  - intros [= <- <-]; done.
  - intros [= <- <-]; simpl. destruct Hr as [Hr _].
    split_and!; try done. by destruct seen.
  - intros [= <- <-]. split_and!; try done.
    + rewrite Hr. by apply reported_log.
    + destruct ((LoadU2FDeviceHandle _ _).2); done.
  - destruct H as [E H]. intros [= <- <-]; simpl. rewrite E.
    split_and!; auto using reported_none.
  - destruct (wg s); [simpl in Hwg; lia|]; intros [= <- <-]; done.
  - intros [= <- <-]; done.
  - intros [= <- <-]; done.
Qed.

Lemma invTOTP_step p s s' p' :
  invTOTP username storageProvider prefs0 p s ->
  errors s ⊆ fails -> live p <= wg s ->
  stepTOTP s p = (s', p') ->
  invTOTP username storageProvider prefs0 p' s'.
Proof.
  unfold invTOTP, failureTOTP. intros (Hr & Ha & H) Hsub Hwg.
  destruct p; simpl in *.
  - destruct (LoadTOTPSecret _ _) as [secret [err|]] eqn:E; [case_decide|];
      intros [= <- <-]; simpl; rewrite ?E; simpl;
      rewrite ?decide_True, ?decide_False by done;
      split_and!; auto using reported_none.
  - intros [= <- <-]; done.
  - intros [= <- <-]; simpl. destruct Hr as [Hr _].
    split_and!; try done. by destruct seen.
  - intros [= <- <-]. split_and!; try done.
    + rewrite Hr. by apply reported_log.
    + destruct ((LoadTOTPSecret _ _).2); done.
  - destruct H as [E H]. intros [= <- <-]; simpl. rewrite E.
    split_and!; auto using reported_none.
  - destruct (wg s); [simpl in Hwg; lia|]; intros [= <- <-]; done.
  - intros [= <- <-]; done.
  - intros [= <- <-]; done.
Qed.

(** *** The slice holds errors of the lookups only *)

Lemma step_common_errors {A} failure s (p : pc A) s' p' :
  (forall err, failure = Some err -> err ∈ fails) ->
  reporting username storageProvider failure p ->
  errors s ⊆ fails ->
  step_common s p = (s', p') ->
  errors s' ⊆ fails.
Proof.
  intros Hin Hr Hsub. destruct p; simpl in *; try (by intros [= <- <-]).
  - destruct Hr as [Hr Hseen]. intros [= <- <-]; simpl.
    apply Hin in Hr. intros x [Hx | ->%list_elem_of_singleton]%elem_of_app; auto.
  - destruct (wg s); by intros [= <- <-].
Qed.

Lemma step_method_errors s p s' p' :
  invMethod PossibleMethods username storageProvider prefs0 p s ->
  errors s ⊆ fails -> stepMethod s p = (s', p') -> errors s' ⊆ fails.
Proof.
  intros (Hr & _) Hsub.
  destruct p;
    try (by eapply step_common_errors; eauto using failureMethod_in); simpl.
  - destruct (LoadPreferred2FAMethod _ _) as [? [?|]]; by intros [= <- <-].
  - case_decide; [destruct (PossibleMethods !! 0%nat); [|unfold panicking; destruct (wg s)]|]; by intros [= <- <-].
Qed.

Lemma step_u2f_errors s p s' p' :
  invU2F username storageProvider prefs0 p s ->
  errors s ⊆ fails -> stepU2F s p = (s', p') -> errors s' ⊆ fails.
Proof.
  intros (Hr & _) Hsub.
  destruct p;
    try (by eapply step_common_errors; eauto using failureU2F_in); simpl.
  - destruct (LoadU2FDeviceHandle _ _) as [[? ?] [?|]]; [case_decide|];
      by intros [= <- <-].
  - by intros [= <- <-].
Qed.

Lemma step_totp_errors s p s' p' :
  invTOTP username storageProvider prefs0 p s ->
  errors s ⊆ fails -> stepTOTP s p = (s', p') -> errors s' ⊆ fails.
Proof.
  intros (Hr & _) Hsub.
  destruct p;
    try (by eapply step_common_errors; eauto using failureTOTP_in); simpl.
  - destruct (LoadTOTPSecret _ _) as [? [?|]]; [case_decide|];
      by intros [= <- <-].
  - by intros [= <- <-].
Qed.

(** *** The counter of the wait group *)

Lemma step_common_wg {A} s (p : pc A) s' p' k :
  wg s = live p + k -> step_common s p = (s', p') -> wg s' = live p' + k.
Proof.
  intros Hwg. destruct p; simpl in *; try (by intros [= <- <-]).
  destruct (wg s); intros [= <- <-]; simpl; lia.
Qed.

Lemma step_method_wg s p s' p' k :
  wg s = live p + k -> stepMethod s p = (s', p') -> wg s' = live p' + k.
Proof.
  intros Hwg. destruct p; try (by apply step_common_wg); simpl in *.
  - destruct (LoadPreferred2FAMethod _ _) as [? [?|]]; by intros [= <- <-].
  - case_decide; [destruct (PossibleMethods !! 0%nat); [|unfold panicking; destruct (wg s)]|];
      intros [= <- <-]; simpl in *; lia.
Qed.

Lemma step_u2f_wg s p s' p' k :
  wg s = live p + k -> stepU2F s p = (s', p') -> wg s' = live p' + k.
Proof.
  intros Hwg. destruct p; try (by apply step_common_wg); simpl in *.
  - destruct (LoadU2FDeviceHandle _ _) as [[? ?] [?|]]; [case_decide|];
      by intros [= <- <-].
  - by intros [= <- <-].
Qed.

Lemma step_totp_wg s p s' p' k :
  wg s = live p + k -> stepTOTP s p = (s', p') -> wg s' = live p' + k.
Proof.
  intros Hwg. destruct p; try (by apply step_common_wg); simpl in *.
  - destruct (LoadTOTPSecret _ _) as [? [?|]]; [case_decide|];
      by intros [= <- <-].
  - by intros [= <- <-].
Qed.

(** *** The invariant holds along every schedule *)

Lemma Inv_spawn log : INV (spawn prefs0 log).
Proof. split; simpl; try done. set_solver. Qed.

Lemma Inv_step g m : INV m -> INV (step1 g m).
Proof.
  intros [Hm Hu Ht Hwg Herr].
  assert (live (pcMethod m) <= wg (mem m) /\ live (pcU2F m) <= wg (mem m)
          /\ live (pcTOTP m) <= wg (mem m)) as (L1 & L2 & L3) by lia.
  destruct g; unfold step.
  - destruct (stepMethod _ _) as [s' p'] eqn:E.
    destruct (step_method_frame _ _ _ _ E) as [F1 F2].
    pose proof (step_method_grows _ _ _ _ E).
    split; simpl;
      eauto using invMethod_step, invU2F_stable, invTOTP_stable, step_method_errors.
    rewrite <- Nat.add_assoc in *. eauto using step_method_wg.
  - destruct (stepU2F _ _) as [s' p'] eqn:E.
    destruct (step_u2f_frame _ _ _ _ E) as [F1 F2].
    pose proof (step_u2f_grows _ _ _ _ E).
    split; simpl;
      eauto using invU2F_step, invMethod_stable, invTOTP_stable, step_u2f_errors.
    assert (wg (mem m) = live (pcU2F m) + (live (pcMethod m) + live (pcTOTP m)))
      as Hwg' by lia.
    pose proof (step_u2f_wg _ _ _ _ _ Hwg' E). lia.
  - destruct (stepTOTP _ _) as [s' p'] eqn:E.
    destruct (step_totp_frame _ _ _ _ E) as [F1 F2].
    pose proof (step_totp_grows _ _ _ _ E).
    split; simpl;
      eauto using invTOTP_step, invMethod_stable, invU2F_stable, step_totp_errors.
    assert (wg (mem m) = live (pcTOTP m) + (live (pcMethod m) + live (pcU2F m)))
      as Hwg' by lia.
    pose proof (step_totp_wg _ _ _ _ _ Hwg' E). lia.
Qed.

Lemma Inv_exec sched m : INV m -> INV (run sched m).
Proof.
  revert m. induction sched as [|g sched IH]; simpl; auto using Inv_step.
Qed.

(** *** Every goroutine runs to its end *)

Lemma step_method_remaining s p s' p' :
  stepMethod s p = (s', p') -> remaining p' <= pred (remaining p).
Proof.
  destruct p; simpl; try (intros [= <- <-]; simpl; lia).
  - destruct (LoadPreferred2FAMethod _ _) as [? [?|]];
      intros [= <- <-]; simpl; lia.
  - case_decide; [destruct (PossibleMethods !! 0%nat); [|unfold panicking; destruct (wg s)]|];
      intros [= <- <-]; simpl; lia.
  - destruct (wg s); intros [= <- <-]; simpl; lia.
Qed.

Lemma step_u2f_remaining s p s' p' :
  stepU2F s p = (s', p') -> remaining p' <= pred (remaining p).
Proof.
  destruct p; simpl; try (intros [= <- <-]; simpl; lia).
  - destruct (LoadU2FDeviceHandle _ _) as [[? ?] [?|]]; [case_decide|];
      intros [= <- <-]; simpl; lia.
  - destruct (wg s); intros [= <- <-]; simpl; lia.
Qed.

Lemma step_totp_remaining s p s' p' :
  stepTOTP s p = (s', p') -> remaining p' <= pred (remaining p).
Proof.
  destruct p; simpl; try (intros [= <- <-]; simpl; lia).
  - destruct (LoadTOTPSecret _ _) as [? [?|]]; [case_decide|];
      intros [= <- <-]; simpl; lia.
  - destruct (wg s); intros [= <- <-]; simpl; lia.
Qed.

Lemma remainingOf_step g g' m :
  remainingOf g (step1 g' m) <= if decide (g' = g) then pred (remainingOf g m) else remainingOf g m.
Proof.
  destruct g'; unfold step.
  - destruct (stepMethod _ _) as [s' p'] eqn:E.
    apply step_method_remaining in E. destruct g; simpl; done.
  - destruct (stepU2F _ _) as [s' p'] eqn:E.
    apply step_u2f_remaining in E. destruct g; simpl; done.
  - destruct (stepTOTP _ _) as [s' p'] eqn:E.
    apply step_totp_remaining in E. destruct g; simpl; done.
Qed.

Lemma remainingOf_exec g sched m : remainingOf g (run sched m) <= remainingOf g m - runs g sched.
Proof.
  unfold runs. revert m.
  induction sched as [|g' sched IH]; intros m; simpl; [lia|].
  specialize (IH (step1 g' m)). pose proof (remainingOf_step g g' m) as Hstep.
  rewrite filter_cons. destruct (decide (g' = g)); simpl; lia.
Qed.

Lemma remaining_le {A} (p : pc A) : remaining p <= 5.
Proof. destruct p; simpl; lia. Qed.

Lemma remaining_0 {A} (p : pc A) : remaining p = 0 -> p = Exited \/ p = Panicked.
Proof. destruct p; simpl; auto; lia. Qed.

Lemma complete_remainingOf sched m g : complete sched -> remainingOf g (run sched m) = 0.
Proof.
  intros Hc. pose proof (remainingOf_exec g sched m). specialize (Hc g).
  assert (remainingOf g m <= 5) by (destruct g; apply remaining_le). lia.
Qed.

(** *** Every failure is appended at some point *)

Lemma failureU2F_Some err :
  failU2F = Some err ->
  (LoadU2FDeviceHandle storageProvider username).2 = Some err
  /\ err <> ErrNoU2FDeviceHandle.
Proof.
  unfold failureU2F. destruct ((LoadU2FDeviceHandle _ _).2) as [e|]; [|done].
  case_decide; [done|]. by intros [= <-].
Qed.

Lemma failureTOTP_Some err :
  failTOTP = Some err ->
  (LoadTOTPSecret storageProvider username).2 = Some err
  /\ err <> ErrNoTOTPSecret.
Proof.
  unfold failureTOTP. destruct ((LoadTOTPSecret _ _).2) as [e|]; [|done].
  case_decide; [done|]. by intros [= <-].
Qed.

Lemma step_appends g g' m err :
  INV m ->
  failureOf username storageProvider g = Some err ->
  beforeAppendOf g m = true ->
  beforeAppendOf g (step1 g' m) = false ->
  last (errors (mem (step1 g' m))) = Some err.
Proof.
  intros [(Rm & _) (Ru & _) (Rt & _) _ _] Hfail Hpre Hpost.
  destruct g, g'; unfold step in *; simpl in *;
    try (destruct (step_method _ _ _ _ _) as [s' p']; simpl in *; congruence);
    try (destruct (step_u2f _ _ _ _) as [s' p']; simpl in *; congruence);
    try (destruct (step_totp _ _ _ _) as [s' p']; simpl in *; congruence).
  - destruct (pcMethod m) as [|e|e seen| | | | |]; simpl in *; try done.
    + unfold failureMethod in Hfail.
      destruct (LoadPreferred2FAMethod _ _) as [? [?|]]; simpl in *; done.
    + destruct Rm as [Rm _]. rewrite Rm in Hfail. injection Hfail as ->.
      apply last_snoc.
  - apply failureU2F_Some in Hfail as Hload.
    destruct (pcU2F m) as [|e|e seen| | | | |]; simpl in *; try done.
    + destruct Hload as [Hload Hne].
      destruct (LoadU2FDeviceHandle _ _) as [[? ?] [?|]]; simpl in *; [|done].
      injection Hload as ->. by rewrite decide_False in Hpost.
    + destruct Ru as [Ru _]. rewrite Ru in Hfail. injection Hfail as ->.
      apply last_snoc.
  - apply failureTOTP_Some in Hfail as Hload.
    destruct (pcTOTP m) as [|e|e seen| | | | |]; simpl in *; try done.
    + destruct Hload as [Hload Hne].
      destruct (LoadTOTPSecret _ _) as [? [?|]]; simpl in *; [|done].
      injection Hload as ->. by rewrite decide_False in Hpost.
    + destruct Rt as [Rt _]. rewrite Rt in Hfail. injection Hfail as ->.
      apply last_snoc.
Qed.

Lemma failure_appended g sched m err :
  INV m ->
  failureOf username storageProvider g = Some err ->
  beforeAppendOf g m = true ->
  beforeAppendOf g (run sched m) = false ->
  appendedAlong PossibleMethods username storageProvider sched m err.
Proof.
  revert m. induction sched as [|g' sched IH]; intros m HI Hfail Hpre Hpost.
  - simpl in Hpost. congruence.
  - simpl in Hpost.
    destruct (beforeAppendOf g (step1 g' m)) eqn:Hmid.
    + destruct (IH (step1 g' m)) as (s1 & s2 & -> & Hlast);
        auto using Inv_step.
      by exists (g' :: s1), s2.
    + exists [g'], sched. split; [done|]. simpl. by eapply step_appends.
Qed.

(** *** What the caller finds when loadInfo has returned *)

Lemma fails_elem err :
  err ∈ fails <-> failMethod = Some err \/ failU2F = Some err \/ failTOTP = Some err.
Proof.
  unfold failures. rewrite !elem_of_app.
  destruct failMethod, failU2F, failTOTP; simpl;
    rewrite ?list_elem_of_singleton, ?elem_of_nil;
    intuition (subst; auto; congruence).
Qed.

Lemma loadInfo_released sched log r :
  loadInfo PossibleMethods username storageProvider sched prefs0 log = Some r ->
  pcMethod (run sched (spawn prefs0 log)) = Exited
  /\ pcU2F (run sched (spawn prefs0 log)) = Exited
  /\ pcTOTP (run sched (spawn prefs0 log)) = Exited
  /\ r = {| returned := errors (mem (run sched (spawn prefs0 log)));
            result := preferences (mem (run sched (spawn prefs0 log)));
            logged := logger (mem (run sched (spawn prefs0 log))) |}.
Proof.
  unfold loadInfo. pose proof (Inv_exec sched _ (Inv_spawn log)) as [_ _ _ Hwg _].
  destruct (crashed _) eqn:Hc; [done|]. destruct (wg _); [|done].
  intros [= <-]. unfold crashed in Hc.
  destruct (pcMethod _), (pcU2F _), (pcTOTP _); simpl in *; try done; lia.
Qed.

Lemma loadInfo_Some sched log r :
  loadInfo PossibleMethods username storageProvider sched prefs0 log = Some r ->
  returned r ⊆ fails
  /\ (forall err, err ∈ fails -> returned r <> [] /\ LogError err ∈ logged r)
  /\ match LoadPreferred2FAMethod storageProvider username with
     | (_, Some _) => Method (result r) = Method prefs0
     | (method, None) =>
         methodChosen PossibleMethods method = Some (Method (result r))
     end
  /\ match (LoadU2FDeviceHandle storageProvider username).2 with
     | Some _ => HasU2F (result r) = HasU2F prefs0
     | None => HasU2F (result r) = true
     end
  /\ match (LoadTOTPSecret storageProvider username).2 with
     | Some _ => HasTOTP (result r) = HasTOTP prefs0
     | None => HasTOTP (result r) = true
     end.
Proof.
  intros (Em & Eu & Et & ->)%loadInfo_released. simpl.
  pose proof (Inv_exec sched _ (Inv_spawn log)) as [Hm Hu Ht Hwg Herr].
  rewrite Em in Hm. rewrite Eu in Hu. rewrite Et in Ht.
  destruct Hm as (_ & _ & Rm & Hm), Hu as (_ & _ & Ru & Hu), Ht as (_ & _ & Rt & Ht).
  split_and!; try done.
  intros err [?|[?|?]]%fails_elem; eauto.
Qed.

Lemma loadInfo_complete sched log :
  complete sched ->
  (forall method,
      LoadPreferred2FAMethod storageProvider username = (method, None) ->
      methodChosen PossibleMethods method <> None) ->
  is_Some (loadInfo PossibleMethods username storageProvider sched prefs0 log).
Proof.
  intros Hc Hidx. unfold loadInfo.
  pose proof (Inv_exec sched _ (Inv_spawn log)) as [Hm Hu Ht Hwg Herr].
  pose proof (complete_remainingOf sched (spawn prefs0 log) GMethod Hc) as Em.
  pose proof (complete_remainingOf sched (spawn prefs0 log) GU2F Hc) as Eu.
  pose proof (complete_remainingOf sched (spawn prefs0 log) GTOTP Hc) as Et.
  simpl in Em, Eu, Et.
  apply remaining_0 in Em as [Em|Em]; rewrite Em in Hm, Hwg; last first.
  { destruct Hm as (_ & _ & method & E & Hnone). by destruct (Hidx method E). }
  apply remaining_0 in Eu as [Eu|Eu]; rewrite Eu in Hu, Hwg; last first.
  { by destruct Hu as (_ & _ & []). }
  apply remaining_0 in Et as [Et|Et]; rewrite Et in Ht, Hwg; last first.
  { by destruct Ht as (_ & _ & []). }
  unfold crashed. rewrite Em, Eu, Et. simpl in *. rewrite Hwg. eauto.
Qed.

Lemma loadInfo_appended sched log r err :
  loadInfo PossibleMethods username storageProvider sched prefs0 log = Some r ->
  err ∈ fails ->
  appendedAlong PossibleMethods username storageProvider sched
                (spawn prefs0 log) err.
Proof.
  intros Hr Hin. unfold loadInfo in Hr.
  pose proof (Inv_exec sched _ (Inv_spawn log)) as [_ _ _ Hwg _].
  destruct (crashed _); [done|]. destruct (wg _); [|done]. clear Hr.
  assert (forall g, beforeAppendOf g (run sched (spawn prefs0 log)) = false) as Hend.
  { intros []; simpl.
    - destruct (pcMethod _); simpl in *; done || lia.
    - destruct (pcU2F _); simpl in *; done || lia.
    - destruct (pcTOTP _); simpl in *; done || lia. }
  apply fails_elem in Hin as [Hin|[Hin|Hin]].
  - by apply (failure_appended GMethod); auto using Inv_spawn.
  - by apply (failure_appended GU2F); auto using Inv_spawn.
  - by apply (failure_appended GTOTP); auto using Inv_spawn.
Qed.

End LoadInfoFacts.

Lemma roundRobin_complete : complete roundRobin.
Proof. intros []; vm_compute; lia. Qed.

(** *** The claims about loadInfo *)

Lemma loadInfo_exited PossibleMethods username storageProvider sched prefs0 log r :
  loadInfo PossibleMethods username storageProvider sched prefs0 log = Some r ->
  let m := exec PossibleMethods username storageProvider sched (spawn prefs0 log) in
  pcMethod m = Exited /\ pcU2F m = Exited /\ pcTOTP m = Exited.
Proof.
  intros (Em & Eu & Et & _)%loadInfo_released. done.
Qed.

(** C2. For every user name: [loadInfo] returns only when its three
    goroutines have exited, and the list it returns is empty exactly when no
    lookup failed (the preferred-method lookup without error, the two others
    without error or with their sentinel); it does return once every
    goroutine has been given its steps, unless the index expression on
    [PossibleMethods] panics. *)
Theorem loadInfo_barrier
    PossibleMethods username storageProvider prefs0 sched log :
  (forall r,
      loadInfo PossibleMethods username storageProvider sched prefs0 log = Some r ->
      (let m := exec PossibleMethods username storageProvider sched
                     (spawn prefs0 log) in
       pcMethod m = Exited /\ pcU2F m = Exited /\ pcTOTP m = Exited)
      /\ (returned r = [] <->
          failureMethod username storageProvider = None
          /\ failureU2F username storageProvider = None
          /\ failureTOTP username storageProvider = None))
  /\ (complete sched ->
      (forall method,
          LoadPreferred2FAMethod storageProvider username = (method, None) ->
          methodChosen PossibleMethods method <> None) ->
      is_Some (loadInfo PossibleMethods username storageProvider sched prefs0 log)).
Proof.
  split; [|apply loadInfo_complete].
  intros r Hr. split; [by eapply loadInfo_exited|].
  apply loadInfo_Some in Hr as (Hsub & Hall & _).
  split.
  - intros Hnil.
    assert (forall err, err ∉ failures username storageProvider) as Hno.
    { intros err Hin. destruct (Hall err Hin) as [Hne _]. done. }
    split_and!.
    + destruct (failureMethod _ _) as [e|] eqn:E; [|done].
      destruct (Hno e). by apply failureMethod_in.
    + destruct (failureU2F _ _) as [e|] eqn:E; [|done].
      destruct (Hno e). by apply failureU2F_in.
    + destruct (failureTOTP _ _) as [e|] eqn:E; [|done].
      destruct (Hno e). by apply failureTOTP_in.
  - intros (E1 & E2 & E3). unfold failures in Hsub.
    rewrite E1, E2, E3 in Hsub. simpl in Hsub.
    destruct (returned r) as [|e l]; [done|].
    specialize (Hsub e). rewrite elem_of_nil in Hsub. destruct Hsub. by left.
Qed.

Lemma loadInfo_barrier_witness :
  exists r,
    loadInfo threeMethods "john" storeU2FDown roundRobin UserPreferences_zero []
    = Some r
    /\ (returned r = [] <->
        failureMethod "john" storeU2FDown = None
        /\ failureU2F "john" storeU2FDown = None
        /\ failureTOTP "john" storeU2FDown = None).
Proof.
  destruct (loadInfo_barrier threeMethods "john" storeU2FDown UserPreferences_zero
              roundRobin []) as [Hsafe Hlive].
  destruct Hlive as [r Hr].
  - intros []; vm_compute; lia.
  - intros method [= <-]. vm_compute. discriminate.
  - exists r. split; [exact Hr | exact (proj2 (Hsafe r Hr))].
Defined.

(** C5. In every state of the three goroutines, a step of the
    preferred-method goroutine leaves [HasU2F] and [HasTOTP] as they are, a
    step of the U2F goroutine leaves [Method] and [HasTOTP] as they are, and a
    step of the TOTP goroutine leaves [Method] and [HasU2F] as they are: no
    field of the result is written by two goroutines. *)
Theorem loadInfo_disjoint_fields PossibleMethods username storageProvider m :
  let after g := preferences (mem (step PossibleMethods username storageProvider g m)) in
  let before := preferences (mem m) in
  (HasU2F (after GMethod) = HasU2F before /\ HasTOTP (after GMethod) = HasTOTP before)
  /\ (Method (after GU2F) = Method before /\ HasTOTP (after GU2F) = HasTOTP before)
  /\ (Method (after GTOTP) = Method before /\ HasU2F (after GTOTP) = HasU2F before).
Proof.
  simpl. unfold step. split_and!.
  1,2: destruct (step_method _ _ _ _ _) as [s' p'] eqn:E; simpl;
       by destruct (step_method_frame _ _ _ _ _ _ _ E).
  1,2: destruct (step_u2f _ _ _ _) as [s' p'] eqn:E; simpl;
       by destruct (step_u2f_frame _ _ _ _ _ _ E).
  1,2: destruct (step_totp _ _ _ _) as [s' p'] eqn:E; simpl;
       by destruct (step_totp_frame _ _ _ _ _ _ E).
Qed.

(** C9. For every user name: when the preferred-method lookup succeeds with
    the empty string, [loadInfo] returns with [Method] set to the first entry
    of [PossibleMethods]; the goroutine of that lookup is never at the append
    or at the log call, and every error returned is a failure of one of the
    two other lookups. *)
Theorem loadInfo_default_method
    PossibleMethods first username storageProvider prefs0 sched log :
  PossibleMethods !! 0%nat = Some first ->
  LoadPreferred2FAMethod storageProvider username = ("", None) ->
  (forall r,
      loadInfo PossibleMethods username storageProvider sched prefs0 log = Some r ->
      Method (result r) = first
      /\ returned r ⊆ option_list (failureU2F username storageProvider)
                      ++ option_list (failureTOTP username storageProvider))
  /\ appending (pcMethod (exec PossibleMethods username storageProvider sched
                               (spawn prefs0 log))) = false
  /\ (complete sched ->
      is_Some (loadInfo PossibleMethods username storageProvider sched prefs0 log)).
Proof.
  intros Hfirst Em. split_and!.
  - intros r Hr. apply loadInfo_Some in Hr as (Hsub & _ & Hm & _).
    rewrite Em in Hm. unfold methodChosen in Hm. simpl in Hm.
    split; [congruence|].
    unfold failures, failureMethod in Hsub. by rewrite Em in Hsub.
  - pose proof (Inv_exec PossibleMethods username storageProvider prefs0 sched _
                  (Inv_spawn _ _ _ _ log)) as [(Hr & _) _ _ _ _].
    unfold failureMethod in Hr. rewrite Em in Hr.
    destruct (pcMethod _); simpl in *; try done. by destruct Hr.
  - intros Hc. apply loadInfo_complete; [done|].
    intros method E. rewrite Em in E. injection E as <-.
    unfold methodChosen. simpl. by rewrite Hfirst.
Qed.

Lemma loadInfo_default_method_witness :
  exists r,
    loadInfo threeMethods "john" storeNoPreference roundRobin
             UserPreferences_zero [] = Some r
    /\ Method (result r) = "totp".
Proof.
  destruct (loadInfo_default_method threeMethods "totp" "john" storeNoPreference
              UserPreferences_zero roundRobin [] eq_refl eq_refl)
    as (Hsafe & _ & Hlive).
  destruct Hlive as [r Hr]; [intros []; vm_compute; lia|].
  exists r. split; [exact Hr | exact (proj1 (Hsafe r Hr))].
Defined.

(** C4, at a failing input: two lookups fail and the two goroutines read the
    empty slice before either assigns it; the error of the U2F lookup is
    appended (after five steps it is the list) and then overwritten, so that
    it is missing from the list [loadInfo] returns. Run one after the other,
    the same goroutines return both errors. *)
Theorem loadInfo_lost_append :
  let u2fError := errorString "u2f: connection refused" in
  let totpError := errorString "totp: connection refused" in
  failures "john" storeTwoDown = [u2fError; totpError]
  /\ errors (mem (exec threeMethods "john" storeTwoDown (take 5 racing)
                       (spawn UserPreferences_zero []))) = [u2fError]
  /\ (exists r,
        loadInfo threeMethods "john" storeTwoDown racing UserPreferences_zero []
        = Some r
        /\ returned r = [totpError] /\ u2fError ∉ returned r)
  /\ (exists r,
        loadInfo threeMethods "john" storeTwoDown oneByOne UserPreferences_zero []
        = Some r
        /\ returned r = [u2fError; totpError]).
Proof.
  simpl. split_and!.
  - reflexivity.
  - reflexivity.
  - eexists. split; [vm_compute; reflexivity|]. simpl. split; [done|].
    intros [=]%list_elem_of_singleton.
  - eexists. split; [vm_compute; reflexivity|]. done.
Qed.

(** ** The handlers *)

Lemma UserInfoGet_unfold PossibleMethods operationFailedMessage sched ctx r :
  loadInfo PossibleMethods (sessionUsername ctx) (StorageProvider ctx) sched
           UserPreferences_zero (Logger ctx) = Some r ->
  UserInfoGet PossibleMethods operationFailedMessage sched ctx
  = Some (ctx_reply
            (if bool_decide (returned r = [])
             then ReplyJSONBody (result r)
             else ReplyError (errorString "Unable to load user information")
                             operationFailedMessage)
            (ctx_log (logged r) ctx)).
Proof.
  intros Hr. unfold UserInfoGet. rewrite Hr.
  destruct (returned r) as [|e l]; repeat case_bool_decide;
    simpl in *; done || lia.
Qed.

Lemma UserInfoGet_complete PossibleMethods operationFailedMessage sched ctx :
  complete sched ->
  (forall method,
      LoadPreferred2FAMethod (StorageProvider ctx) (sessionUsername ctx) = (method, None) ->
      methodChosen PossibleMethods method <> None) ->
  is_Some (UserInfoGet PossibleMethods operationFailedMessage sched ctx).
Proof.
  intros Hc Hidx.
  destruct (loadInfo_complete PossibleMethods (sessionUsername ctx)
              (StorageProvider ctx) UserPreferences_zero sched (Logger ctx) Hc Hidx)
    as [r Hr].
  rewrite (UserInfoGet_unfold _ operationFailedMessage _ _ _ Hr). eauto.
Qed.

(** C3. For every user of a session: when the U2F lookup fails with an error
    other than its sentinel while the preferred-method lookup and the TOTP
    lookup succeed, [loadInfo] returns a list that is not empty and holds
    that error, [Method] and [HasTOTP] of the result are set from the two
    lookups that succeeded, and [UserInfoGet] answers with [ctx.Error] on
    the fixed error and the fixed message; it does answer once every
    goroutine has been given its steps. *)
Theorem UserInfoGet_u2f_failure
    PossibleMethods operationFailedMessage sched ctx method err :
  let username := sessionUsername ctx in
  let storageProvider := StorageProvider ctx in
  LoadPreferred2FAMethod storageProvider username = (method, None) ->
  (LoadU2FDeviceHandle storageProvider username).2 = Some err ->
  err <> ErrNoU2FDeviceHandle ->
  (LoadTOTPSecret storageProvider username).2 = None ->
  (forall r,
      loadInfo PossibleMethods username storageProvider sched
               UserPreferences_zero (Logger ctx) = Some r ->
      returned r <> [] /\ err ∈ returned r
      /\ methodChosen PossibleMethods method = Some (Method (result r))
      /\ HasTOTP (result r) = true
      /\ UserInfoGet PossibleMethods operationFailedMessage sched ctx
         = Some (ctx_reply
                   (ReplyError (errorString "Unable to load user information")
                               operationFailedMessage)
                   (ctx_log (logged r) ctx)))
  /\ (complete sched -> methodChosen PossibleMethods method <> None ->
      is_Some (UserInfoGet PossibleMethods operationFailedMessage sched ctx)).
Proof.
  simpl. intros Em Eu Hne Et. split.
  - intros r Hr. pose proof Hr as Hr'.
    apply loadInfo_Some in Hr as (Hsub & Hall & Hm & _ & Ht).
    rewrite Em in Hm. rewrite Et in Ht.
    assert (failures (sessionUsername ctx) (StorageProvider ctx) = [err]) as Hf.
    { unfold failures, failureMethod, failureU2F, failureTOTP.
      rewrite Em, Eu, Et. simpl. by rewrite decide_False. }
    rewrite Hf in Hsub, Hall.
    destruct (Hall err) as [Hne' _]; [by left|].
    split_and!; try done.
    + destruct (returned r) as [|e l]; [done|].
      assert (e ∈ [err]) as ->%list_elem_of_singleton by (apply Hsub; by left).
      by left.
    + rewrite (UserInfoGet_unfold _ operationFailedMessage _ _ _ Hr').
      by rewrite bool_decide_eq_false_2.
  - intros Hc Hidx. apply UserInfoGet_complete; [done|].
    intros method' E. rewrite Em in E. by injection E as <-.
Qed.

Lemma UserInfoGet_u2f_failure_witness :
  exists ctx',
    UserInfoGet threeMethods "Operation failed." roundRobin
                (requestOf storeU2FDown "") = Some ctx'
    /\ replies ctx'
       = [ReplyError (errorString "Unable to load user information")
                     "Operation failed."].
Proof.
  destruct (UserInfoGet_u2f_failure threeMethods "Operation failed." roundRobin
              (requestOf storeU2FDown "") "u2f"
              (errorString "u2f: connection refused")
              eq_refl eq_refl ltac:(discriminate) eq_refl) as [Hsafe Hlive].
  destruct (loadInfo_complete threeMethods "john" storeU2FDown
              UserPreferences_zero roundRobin []) as [r Hr].
  - intros []; vm_compute; lia.
  - intros m [= <-]. vm_compute. discriminate.
  - destruct (Hsafe r Hr) as (_ & _ & _ & _ & Hget).
    eexists. split; [exact Hget | reflexivity].
Defined.

(** C7. For every user of a session: when [loadInfo] returns an empty list,
    [UserInfoGet] answers with the result as JSON body, an object with the
    members method, has_totp and has_u2f; when the list is not empty it
    answers with one [ctx.Error] whose error "Unable to load user
    information" and whose message are the same whichever lookup failed; in
    both cases the error of every failed lookup is in the log when
    [loadInfo] returns. [UserInfoGet] does answer once every goroutine has
    been given its steps. *)
Theorem UserInfoGet_answer PossibleMethods operationFailedMessage sched ctx :
  let username := sessionUsername ctx in
  let storageProvider := StorageProvider ctx in
  (forall r,
      loadInfo PossibleMethods username storageProvider sched
               UserPreferences_zero (Logger ctx) = Some r ->
      (returned r = [] ->
       UserInfoGet PossibleMethods operationFailedMessage sched ctx
       = Some (ctx_reply (ReplyJSONBody (result r)) (ctx_log (logged r) ctx))
       /\ UserPreferences_json (result r)
          = JObject [("method", JString (Method (result r)));
                     ("has_totp", JBool (HasTOTP (result r)));
                     ("has_u2f", JBool (HasU2F (result r)))])
      /\ (returned r <> [] ->
          UserInfoGet PossibleMethods operationFailedMessage sched ctx
          = Some (ctx_reply
                    (ReplyError (errorString "Unable to load user information")
                                operationFailedMessage)
                    (ctx_log (logged r) ctx)))
      /\ (forall err, err ∈ failures username storageProvider ->
                      LogError err ∈ logged r))
  /\ (complete sched ->
      (forall method,
          LoadPreferred2FAMethod storageProvider username = (method, None) ->
          methodChosen PossibleMethods method <> None) ->
      is_Some (UserInfoGet PossibleMethods operationFailedMessage sched ctx)).
Proof.
  simpl. split; [|apply UserInfoGet_complete].
  intros r Hr.
  rewrite (UserInfoGet_unfold _ operationFailedMessage _ _ _ Hr).
  apply loadInfo_Some in Hr as (_ & Hall & _).
  split_and!.
  - intros ->. done.
  - intros Hne. by rewrite bool_decide_eq_false_2.
  - intros err Hin. by destruct (Hall err Hin).
Qed.

Lemma UserInfoGet_answer_witness :
  exists ctx',
    UserInfoGet threeMethods "Operation failed." roundRobin
                (requestOf storeNothingRegistered "") = Some ctx'
    /\ replies ctx'
       = [ReplyJSONBody {| Method := "totp"; HasU2F := false; HasTOTP := false |}].
Proof.
  destruct (UserInfoGet_answer threeMethods "Operation failed." roundRobin
              (requestOf storeNothingRegistered "")) as [Hsafe Hlive].
  destruct (Hsafe {| returned := [];
                     result := {| Method := "totp"; HasU2F := false; HasTOTP := false |};
                     logged := [] |}) as ([Hget _] & _ & _);
    [vm_compute; reflexivity | reflexivity |].
  eexists. split; [exact Hget | reflexivity].
Defined.




(** ** The access-control engine *)

Section EngineFacts.

Import AccessControl.

Variable pathMatches : string -> string -> bool.

Lemma evaluateRules_first rs default s r ip m i rule :
  rs !! i = Some rule ->
  ruleMatches pathMatches s r ip m rule = true ->
  (forall k earlier, k < i -> rs !! k = Some earlier ->
                     ruleMatches pathMatches s r ip m earlier = false) ->
  evaluateRules pathMatches rs default s r ip m = policy rule.
Proof.
  revert i. induction rs as [|head rest IH]; intros i Hi Hmatch Hbefore.
  - done.
  - destruct i as [|i]; simpl in *.
    + injection Hi as ->. by rewrite Hmatch.
    + rewrite (Hbefore 0 head) by (done || lia).
      apply (IH i); [done..|].
      intros k earlier Hk Hlook. apply (Hbefore (S k)); [lia | done].
Qed.

Lemma evaluateRules_none rs default s r ip m :
  (forall rule, rule ∈ rs -> ruleMatches pathMatches s r ip m rule = false) ->
  evaluateRules pathMatches rs default s r ip m = default.
Proof.
  induction rs as [|head rest IH]; intros Hnone; simpl; [done|].
  rewrite Hnone by left. apply IH. intros rule Hin. apply Hnone. by right.
Qed.

End EngineFacts.

(** C8. For every request and every rule set: when a rule matches the
    request and no rule listed before it does, [Evaluate] returns the policy
    of that rule, whichever rules follow it and whether they match or not;
    when no rule matches, it returns the default policy of the rule set. *)
Theorem Evaluate_first_match_wins pathMatches set s r ip m :
  (forall i rule,
      AccessControl.rules set !! i = Some rule ->
      AccessControl.ruleMatches pathMatches s r ip m rule = true ->
      (forall k earlier, k < i -> AccessControl.rules set !! k = Some earlier ->
         AccessControl.ruleMatches pathMatches s r ip m earlier = false) ->
      AccessControl.Evaluate pathMatches set s r ip m = AccessControl.policy rule)
  /\ ((forall rule, rule ∈ AccessControl.rules set ->
         AccessControl.ruleMatches pathMatches s r ip m rule = false) ->
      AccessControl.Evaluate pathMatches set s r ip m
      = AccessControl.defaultPolicy set).
Proof.
  split.
  - intros i rule. apply evaluateRules_first.
  - apply evaluateRules_none.
Qed.

Lemma Evaluate_first_match_wins_witness :
  AccessControl.ruleMatches AccessControl.prefixPattern AccessControl.john
    AccessControl.publicHome 167772161 "GET" AccessControl.wildcardRule = true
  /\ AccessControl.ruleMatches AccessControl.prefixPattern AccessControl.john
       AccessControl.publicHome 167772161 "GET" AccessControl.publicRule = true
  /\ AccessControl.Evaluate AccessControl.prefixPattern AccessControl.exampleRules
       AccessControl.john AccessControl.publicHome 167772161 "GET"
     = AccessControl.two_factor
  /\ AccessControl.Evaluate AccessControl.prefixPattern AccessControl.exampleRules
       AccessControl.john
       {| AccessControl.host := "other.test"; AccessControl.path := "/" |}
       167772161 "GET"
     = AccessControl.deny.
Proof.
  split; [reflexivity|]. split; [reflexivity|].
  destruct (Evaluate_first_match_wins AccessControl.prefixPattern
              AccessControl.exampleRules AccessControl.john AccessControl.publicHome
              167772161 "GET") as [Hfirst _].
  destruct (Evaluate_first_match_wins AccessControl.prefixPattern
              AccessControl.exampleRules AccessControl.john
              {| AccessControl.host := "other.test"; AccessControl.path := "/" |}
              167772161 "GET") as [_ Hnone].
  split.
  - apply (Hfirst 0 AccessControl.wildcardRule); [reflexivity | reflexivity |].
    intros k earlier Hk. lia.
  - apply Hnone. intros rule Hin.
    repeat (apply elem_of_cons in Hin as [->|Hin]; [reflexivity|]).
    by apply elem_of_nil in Hin.
Defined.

(** ** The key manager *)

Section KeyFacts.

Import oidc.

Variable Thumbprint : JSONWebKey -> orError (list Byte.byte).
Variable ParseRsaPrivateKeyFromPemStr : string -> orError rsaPrivateKey.

Lemma string_of_list_byte_nonempty (digest : list Byte.byte) :
  digest <> [] -> String.string_of_list_byte digest <> "".
Proof. destruct digest; [done|]. intros _. discriminate. Qed.

(** A key that is added is stored under its thumbprint and listed in the key
    set, and the active key id is what it was. *)
Lemma AddActiveKey_added m key m' wk :
  AddActiveKey Thumbprint m key = (m', inl wk) ->
  Thumbprint {| Key := PublicKey key; KeyID := ""; Algorithm := "RS256"; Use := "sig" |}
  = inl (String.list_byte_of_string (KeyID wk))
  /\ keys m !! KeyID wk = None
  /\ keys m' = <[KeyID wk := key]> (keys m)
  /\ Keys (keySet m') = Keys (keySet m) ++ [wk]
  /\ GetActiveKeyID m' = GetActiveKeyID m.
Proof.
  unfold AddActiveKey. destruct (Thumbprint _) as [digest|err]; [|done].
  destruct (keys m !! _) eqn:E; [done|]. intros [= <- <-]; simpl.
  by rewrite String.list_byte_of_string_of_list_byte.
Qed.

(** Adding a key whose thumbprint is taken fails and changes nothing. *)
Lemma AddActiveKey_duplicate m key digest :
  Thumbprint {| Key := PublicKey key; KeyID := ""; Algorithm := "RS256"; Use := "sig" |}
  = inl digest ->
  is_Some (keys m !! String.string_of_list_byte digest) ->
  AddActiveKey Thumbprint m key
  = (m, inr (errorString ("key id " +:+ String.string_of_list_byte digest
                          +:+ " already exists"))).
Proof.
  intros Hd [old Hold]. unfold AddActiveKey. by rewrite Hd, Hold.
Qed.

(** C10, on the code: a manager made by [NewKeyManager] holds the key of the
    configuration under its thumbprint, yet its active key id is the empty
    string, not that thumbprint, and [GetActivePrivateKey] and [GetActiveKey]
    fail; [AddActiveKey] never assigns [activeKeyID]. *)
Theorem NewKeyManager_no_active_key IssuerPrivateKey m key digest :
  NewKeyManager Thumbprint ParseRsaPrivateKeyFromPemStr IssuerPrivateKey = inl m ->
  ParseRsaPrivateKeyFromPemStr IssuerPrivateKey = inl key ->
  Thumbprint {| Key := PublicKey key; KeyID := ""; Algorithm := "RS256"; Use := "sig" |}
  = inl digest ->
  digest <> [] ->
  keys m !! String.string_of_list_byte digest = Some key
  /\ GetActiveKeyID m = ""
  /\ GetActiveKeyID m <> String.string_of_list_byte digest
  /\ GetActivePrivateKey m = inr (errorString "failed to retrieve active key")
  /\ GetActiveKey m = inr (errorString "failed to retrieve active key").
Proof.
  intros Hnew Hparse Hdigest Hne.
  apply string_of_list_byte_nonempty in Hne.
  unfold NewKeyManager, AddActiveKeyData, AddActiveKey in Hnew.
  rewrite Hparse, Hdigest in Hnew. cbn [keys] in Hnew.
  rewrite lookup_empty in Hnew. cbn -[insert] in Hnew. injection Hnew as <-.
  unfold GetActiveKeyID, GetActivePrivateKey, GetActiveKey. simpl.
  rewrite lookup_insert_eq, lookup_insert_ne by done.
  rewrite lookup_empty. done.
Qed.

End KeyFacts.

Lemma NewKeyManager_no_active_key_witness :
  exists m,
    oidc.NewKeyManager oidc.thumbprintOfModulus oidc.parseExample "pem" = inl m
    /\ oidc.keys m !! "sha256:3233" = Some oidc.exampleKey
    /\ oidc.GetActiveKeyID m = ""
    /\ oidc.GetActivePrivateKey m = inr (errorString "failed to retrieve active key").
Proof.
  eexists. split; [reflexivity|].
  destruct (NewKeyManager_no_active_key oidc.thumbprintOfModulus oidc.parseExample
              "pem" _ oidc.exampleKey
              (String.list_byte_of_string "sha256:3233")
              eq_refl eq_refl eq_refl ltac:(discriminate))
    as (Hkey & Hid & _ & Hpriv & _).
  split; [exact Hkey|]. split; [exact Hid | exact Hpriv].
Defined.

(** ** Every error at most once in the slice, exactly once in the log *)

Section AccountingFacts.

Variable PossibleMethods : list string.
Variable username : string.
Variable storageProvider : Provider.
Variable prefs0 : UserPreferences.
Variable log0 : list logEntry.

Local Abbreviation ACC := (Accounting username storageProvider log0).
Local Abbreviation INV0 := (Inv PossibleMethods username storageProvider prefs0).
Local Abbreviation fMethod := (failureMethod username storageProvider).
Local Abbreviation fU2F := (failureU2F username storageProvider).
Local Abbreviation fTOTP := (failureTOTP username storageProvider).

Lemma step_common_effect {A} failure s (p : pc A) s' p' :
  reporting username storageProvider failure p ->
  p <> AtCall -> (forall v, p <> AtStore v) ->
  step_common s p = (s', p') -> effect failure s p s' p'.
Proof.
  intros Hr Hcall Hstore. destruct p; simpl in *; try done.
  - intros [= <- <-]. apply effect_quiet; try done.
    intros err' seen [= <- <-]. by right.
  - destruct Hr as [Hr _]. intros [= <- <-]. by eapply effect_append.
  - intros [= <- <-]. by eapply effect_log.
  - by destruct (Hstore v).
  - destruct (wg s); intros [= <- <-]; by apply effect_quiet.
  - intros [= <- <-]; by apply effect_quiet.
  - intros [= <- <-]; by apply effect_quiet.
Qed.

Lemma step_method_effect s p s' p' :
  reporting username storageProvider fMethod p ->
  step_method PossibleMethods username storageProvider s p = (s', p') ->
  effect fMethod s p s' p'.
Proof.
  intros Hr. destruct p; try (by apply step_common_effect); simpl.
  - unfold failureMethod.
    destruct (LoadPreferred2FAMethod _ _) as [method [err|]];
      intros [= <- <-]; by apply effect_quiet.
  - case_decide; [destruct (PossibleMethods !! 0%nat); [|unfold panicking; destruct (wg s)]|];
      intros [= <- <-]; by apply effect_quiet.
Qed.

Lemma step_u2f_effect s p s' p' :
  reporting username storageProvider fU2F p ->
  step_u2f username storageProvider s p = (s', p') ->
  effect fU2F s p s' p'.
Proof.
  intros Hr. destruct p; try (by apply step_common_effect); simpl.
  - unfold failureU2F.
    destruct (LoadU2FDeviceHandle _ _) as [[h k] [err|]]; simpl;
      [case_decide|]; intros [= <- <-]; by apply effect_quiet.
  - intros [= <- <-]; by apply effect_quiet.
Qed.

Lemma step_totp_effect s p s' p' :
  reporting username storageProvider fTOTP p ->
  step_totp username storageProvider s p = (s', p') ->
  effect fTOTP s p s' p'.
Proof.
  intros Hr. destruct p; try (by apply step_common_effect); simpl.
  - unfold failureTOTP.
    destruct (LoadTOTPSecret _ _) as [secret [err|]]; simpl;
      [case_decide|]; intros [= <- <-]; by apply effect_quiet.
  - intros [= <- <-]; by apply effect_quiet.
Qed.

(** *** Putting one more error into a slot *)

Lemma slot_insert_sub (X Y l : list error) err :
  l ⊆+ X ++ Y -> l ++ [err] ⊆+ X ++ [err] ++ Y.
Proof.
  intros H. rewrite (comm (++) l). simpl.
  rewrite <- Permutation_middle. by apply submseteq_skip.
Qed.

Lemma slot_grow_sub (X Y l : list error) err :
  l ⊆+ X ++ Y -> l ⊆+ X ++ [err] ++ Y.
Proof.
  intros H. simpl. rewrite <- Permutation_middle. by apply submseteq_cons.
Qed.

Lemma slot_insert_log (X Y : list error) (log : list logEntry) err :
  log ≡ₚ log0 ++ (LogError <$> X ++ Y) ->
  log ++ [LogError err] ≡ₚ log0 ++ (LogError <$> X ++ [err] ++ Y).
Proof.
  intros ->. rewrite !fmap_app. simpl.
  rewrite <- !Permutation_middle. by rewrite app_nil_r.
Qed.

(** *** The accounting holds along every schedule *)

Lemma effect_accounting {A} failure s (p : pc A) s' p' X Y X' Y' :
  effect failure s p s' p' ->
  errors s ⊆+ X ++ appendedSlot failure p ++ Y ->
  (forall err seen, p = AtAppend err seen ->
                    seen ⊆+ X ++ appendedSlot failure p ++ Y) ->
  logger s ≡ₚ log0 ++ (LogError <$> X' ++ loggedSlot failure p ++ Y') ->
  errors s' ⊆+ X ++ appendedSlot failure p' ++ Y
  /\ (forall err seen, p' = AtAppend err seen ->
                       seen ⊆+ X ++ appendedSlot failure p' ++ Y)
  /\ (forall l, l ⊆+ X ++ appendedSlot failure p ++ Y ->
                l ⊆+ X ++ appendedSlot failure p' ++ Y)
  /\ logger s' ≡ₚ log0 ++ (LogError <$> X' ++ loggedSlot failure p' ++ Y').
Proof.
  intros [He Hl Ha Hg Hseen | err seen -> -> -> He Hl | err -> -> -> He Hl]
         Herr Hread Hlog.
  - rewrite He, Hl, Ha, Hg. split_and!; try done.
    intros err seen Hp'. destruct (Hseen err seen Hp') as [Hp | ->]; eauto.
  - rewrite He, Hl. unfold appendedSlot, loggedSlot in *; simpl in *.
    split_and!; try done.
    + apply slot_insert_sub. by eapply Hread.
    + intros l. apply slot_grow_sub.
  - rewrite He, Hl. unfold appendedSlot, loggedSlot in *; simpl in *.
    split_and!; try done. by apply slot_insert_log.
Qed.

Lemma Accounting_spawn : ACC (spawn prefs0 log0).
Proof.
  split; simpl; try done.
  unfold loggedBy, loggedSlot. simpl. by rewrite app_nil_r.
Qed.

Lemma Accounting_step g m :
  INV0 m -> ACC m ->
  ACC (step PossibleMethods username storageProvider g m).
Proof.
  intros [(Rm & _) (Ru & _) (Rt & _) _ _] [Herr Hm Hu Ht Hlog].
  unfold appendedBy, loggedBy in *. destruct g; unfold step.
  - destruct (step_method _ _ _ _ _) as [s' p'] eqn:E.
    apply (step_method_effect _ _ _ _ Rm) in E.
    destruct (effect_accounting _ _ _ _ _ [] _ [] _ E Herr Hm Hlog)
      as (He' & Hm' & Hmono & Hl').
    split; simpl; unfold appendedBy, loggedBy; simpl; eauto.
  - destruct (step_u2f _ _ _ _) as [s' p'] eqn:E.
    apply (step_u2f_effect _ _ _ _ Ru) in E.
    destruct (effect_accounting _ _ _ _ _ _ _ _ _ E Herr Hu Hlog)
      as (He' & Hu' & Hmono & Hl').
    split; simpl; unfold appendedBy, loggedBy; simpl; eauto.
  - destruct (step_totp _ _ _ _) as [s' p'] eqn:E.
    apply (step_totp_effect _ _ _ _ Rt) in E.
    assert (forall a b c : list error, (a ++ b) ++ c ++ [] = a ++ b ++ c) as R
      by (intros; by rewrite app_nil_r, <- (assoc (++))).
    rewrite <- R in Herr, Hlog.
    assert (forall err seen, pcTOTP m = AtAppend err seen ->
              seen ⊆+ (appendedSlot fMethod (pcMethod m)
                        ++ appendedSlot fU2F (pcU2F m))
                       ++ appendedSlot fTOTP (pcTOTP m) ++ []) as Ht0
      by (intros err seen Hp; rewrite R; eauto).
    destruct (effect_accounting _ _ _ _ _ _ _ _ _ E Herr Ht0 Hlog)
      as (He' & Ht' & Hmono & Hl').
    rewrite R in He', Hl'.
    split; simpl; unfold appendedBy, loggedBy; simpl; try done.
    + intros err seen Hp. rewrite <- R. apply Hmono. rewrite R. eauto.
    + intros err seen Hp. rewrite <- R. apply Hmono. rewrite R. eauto.
    + intros err seen Hp. rewrite <- R. eauto.
Qed.

Lemma Accounting_exec sched m :
  INV0 m -> ACC m ->
  ACC (exec PossibleMethods username storageProvider sched m).
Proof.
  revert m. induction sched as [|g sched IH]; intros m HI HA; simpl; [done|].
  apply IH; auto using Inv_step, Accounting_step.
Qed.

Lemma loadInfo_accounting sched r :
  loadInfo PossibleMethods username storageProvider sched prefs0 log0 = Some r ->
  returned r ⊆+ failures username storageProvider
  /\ logged r ≡ₚ log0 ++ (LogError <$> failures username storageProvider).
Proof.
  intros Hr.
  pose proof (loadInfo_exited _ _ _ _ _ _ _ Hr) as (Em & Eu & Et).
  pose proof (Accounting_exec sched _
                (Inv_spawn PossibleMethods username storageProvider prefs0 log0)
                Accounting_spawn) as [Herr _ _ _ Hlog].
  unfold appendedBy, loggedBy in *. rewrite Em, Eu, Et in Herr, Hlog.
  unfold loadInfo in Hr. destruct (crashed _); [done|].
  destruct (wg _); [|done]. by injection Hr as <-.
Qed.

End AccountingFacts.

Lemma loadInfo_empty_iff
    PossibleMethods username storageProvider prefs0 log sched r :
  loadInfo PossibleMethods username storageProvider sched prefs0 log = Some r ->
  returned r = [] <-> failures username storageProvider = [].
Proof.
  intros Hr. destruct (loadInfo_accounting _ _ _ _ _ _ _ Hr) as [Hsub _].
  apply loadInfo_Some in Hr as (_ & Hall & _). split.
  - intros Hnil. destruct (failures _ _) as [|e l]; [done|].
    destruct (Hall e) as [Hne _]; [by left | done].
  - intros Hf. rewrite Hf in Hsub. by apply submseteq_nil_r in Hsub.
Qed.

(** C1. For every user name, on the fresh result [UserInfoGet] passes and
    whatever the schedule: when the preferred-method lookup gives "totp", the
    U2F lookup ends in [ErrNoU2FDeviceHandle] and the TOTP lookup in
    [ErrNoTOTPSecret], [loadInfo] returns an empty error list and the result
    {Method: "totp", HasTOTP: false, HasU2F: false}. In general a lookup that
    ends in its sentinel leaves its boolean false and puts nothing into the
    list: the list returned holds failures only. Every failure is appended
    to the list at some point of the run, and the list returned shows it: it
    is not empty when a lookup failed, and it is that one error when one
    lookup failed. [loadInfo] does return once every goroutine has been
    given its steps, unless the index expression panics. *)
Theorem loadInfo_nothing_registered
    PossibleMethods username storageProvider sched log :
  (forall r,
      loadInfo PossibleMethods username storageProvider sched
               UserPreferences_zero log = Some r ->
      (LoadPreferred2FAMethod storageProvider username = ("totp", None) ->
       (LoadU2FDeviceHandle storageProvider username).2 = Some ErrNoU2FDeviceHandle ->
       (LoadTOTPSecret storageProvider username).2 = Some ErrNoTOTPSecret ->
       result r = {| Method := "totp"; HasU2F := false; HasTOTP := false |}
       /\ returned r = [])
      /\ ((LoadU2FDeviceHandle storageProvider username).2 = Some ErrNoU2FDeviceHandle ->
          HasU2F (result r) = false)
      /\ ((LoadTOTPSecret storageProvider username).2 = Some ErrNoTOTPSecret ->
          HasTOTP (result r) = false)
      /\ returned r ⊆ failures username storageProvider
      /\ (failures username storageProvider <> [] -> returned r <> [])
      /\ (forall err, failures username storageProvider = [err] ->
                      returned r = [err])
      /\ (forall err, err ∈ failures username storageProvider ->
            appendedAlong PossibleMethods username storageProvider sched
                          (spawn UserPreferences_zero log) err))
  /\ (complete sched ->
      (forall method,
          LoadPreferred2FAMethod storageProvider username = (method, None) ->
          methodChosen PossibleMethods method <> None) ->
      is_Some (loadInfo PossibleMethods username storageProvider sched
                        UserPreferences_zero log)).
Proof.
  split; [|apply loadInfo_complete].
  intros r Hr. pose proof Hr as Hr'.
  destruct (loadInfo_accounting _ _ _ _ _ _ _ Hr) as [Hmulti _].
  apply loadInfo_Some in Hr as (Hsub & Hall & Hm & Hu & Ht).
  split_and!; [| | |done| | |].
  - intros Em Eu Et. rewrite Em in Hm. rewrite Eu in Hu. rewrite Et in Ht.
    unfold methodChosen in Hm. simpl in Hm. injection Hm as Hm.
    split.
    + destruct (result r) as [a b c]; simpl in *. congruence.
    + unfold failures, failureMethod, failureU2F, failureTOTP in Hsub.
      rewrite Em, Eu, Et in Hsub. simpl in Hsub.
      destruct (returned r) as [|e l]; [done|].
      specialize (Hsub e). rewrite elem_of_nil in Hsub.
      destruct Hsub. by left.
  - intros Eu. by rewrite Eu in Hu.
  - intros Et. by rewrite Et in Ht.
  - intros Hne. destruct (failures _ _) as [|e l]; [done|].
    destruct (Hall e) as [Hret _]; [by left | done].
  - intros err Hf. rewrite Hf in Hmulti, Hall.
    destruct (Hall err) as [Hne _]; [by left|].
    destruct (returned r) as [|e l]; [done|].
    apply submseteq_length in Hmulti as Hlen. simpl in Hlen.
    destruct l; [|simpl in Hlen; lia].
    assert (e ∈ [err]) as ->%list_elem_of_singleton; [|done].
    eapply elem_of_submseteq; [|exact Hmulti]. by left.
  - intros err Hin. by eapply loadInfo_appended.
Qed.

Lemma loadInfo_nothing_registered_witness :
  (exists r,
      loadInfo threeMethods "john" storeNothingRegistered roundRobin
               UserPreferences_zero [] = Some r
      /\ result r = {| Method := "totp"; HasU2F := false; HasTOTP := false |}
      /\ returned r = [])
  /\ (exists r,
        loadInfo threeMethods "john" storeU2FDown roundRobin
                 UserPreferences_zero [] = Some r
        /\ returned r = [errorString "u2f: connection refused"]).
Proof.
  split.
  - destruct (loadInfo_nothing_registered threeMethods "john"
                storeNothingRegistered roundRobin []) as [Hsafe Hlive].
    destruct Hlive as [r Hr].
    + intros []; vm_compute; lia.
    + intros method [= <-]. vm_compute. discriminate.
    + exists r. split; [exact Hr|].
      exact (proj1 (Hsafe r Hr) eq_refl eq_refl eq_refl).
  - destruct (loadInfo_nothing_registered threeMethods "john"
                storeU2FDown roundRobin []) as [Hsafe Hlive].
    destruct Hlive as [r Hr].
    + intros []; vm_compute; lia.
    + intros method [= <-]. vm_compute. discriminate.
    + exists r. split; [exact Hr|].
      destruct (Hsafe r Hr) as (_ & _ & _ & _ & _ & Hone & _).
      exact (Hone _ eq_refl).
Defined.

(** X1. Whatever the schedule, the list [loadInfo] returns holds failures of
    the lookups only and each of them at most once: it is a sub-multiset of
    the failures. *)
Theorem loadInfo_returns_each_failure_at_most_once
    PossibleMethods username storageProvider prefs0 log sched r :
  loadInfo PossibleMethods username storageProvider sched prefs0 log = Some r ->
  returned r ⊆+ failures username storageProvider.
Proof. intros Hr. by destruct (loadInfo_accounting _ _ _ _ _ _ _ Hr). Qed.

Lemma loadInfo_returns_each_failure_at_most_once_witness :
  [errorString "totp: connection refused"] ⊆+ failures "john" storeTwoDown.
Proof.
  exact (loadInfo_returns_each_failure_at_most_once threeMethods "john"
           storeTwoDown UserPreferences_zero [] racing
           {| returned := [errorString "totp: connection refused"];
              result := {| Method := "totp"; HasU2F := false; HasTOTP := false |};
              logged := [LogError (errorString "u2f: connection refused");
                         LogError (errorString "totp: connection refused")] |}
           ltac:(vm_compute; reflexivity)).
Defined.

(** X2. Whatever the schedule, when [loadInfo] returns the log holds what it
    held at the call and, exactly once each, the failures of the lookups:
    the logger loses nothing, also where the returned list does. *)
Theorem loadInfo_logs_each_failure_once
    PossibleMethods username storageProvider prefs0 log sched r :
  loadInfo PossibleMethods username storageProvider sched prefs0 log = Some r ->
  logged r ≡ₚ log ++ (LogError <$> failures username storageProvider).
Proof. intros Hr. by destruct (loadInfo_accounting _ _ _ _ _ _ _ Hr). Qed.

Lemma loadInfo_logs_each_failure_once_witness :
  [LogDebug "start";
   LogError (errorString "u2f: connection refused");
   LogError (errorString "totp: connection refused")]
  ≡ₚ [LogDebug "start"] ++ (LogError <$> failures "john" storeTwoDown).
Proof.
  exact (loadInfo_logs_each_failure_once threeMethods "john"
           storeTwoDown UserPreferences_zero [LogDebug "start"] racing
           {| returned := [errorString "totp: connection refused"];
              result := {| Method := "totp"; HasU2F := false; HasTOTP := false |};
              logged := [LogDebug "start";
                         LogError (errorString "u2f: connection refused");
                         LogError (errorString "totp: connection refused")] |}
           ltac:(vm_compute; reflexivity)).
Defined.

(** X3. When exactly one lookup fails, no append can be lost: whatever the
    schedule, the list [loadInfo] returns is that one error; and it does
    return it once every goroutine has been given its steps, unless the index
    expression panics. *)
Theorem loadInfo_single_failure
    PossibleMethods username storageProvider prefs0 log sched err :
  failures username storageProvider = [err] ->
  (forall r,
      loadInfo PossibleMethods username storageProvider sched prefs0 log = Some r ->
      returned r = [err])
  /\ (complete sched ->
      (forall method,
          LoadPreferred2FAMethod storageProvider username = (method, None) ->
          methodChosen PossibleMethods method <> None) ->
      exists r,
        loadInfo PossibleMethods username storageProvider sched prefs0 log = Some r
        /\ returned r = [err]).
Proof.
  intros Hf.
  assert (forall r,
             loadInfo PossibleMethods username storageProvider sched prefs0 log
             = Some r -> returned r = [err]) as Hsafe.
  { intros r Hr.
    pose proof (loadInfo_accounting _ _ _ _ _ _ _ Hr) as [Hsub _].
    apply loadInfo_Some in Hr as (_ & Hall & _).
    rewrite Hf in Hsub, Hall.
    destruct (Hall err) as [Hne _]; [by left|].
    destruct (returned r) as [|e l]; [done|].
    apply submseteq_length in Hsub as Hlen. simpl in Hlen.
    destruct l; [|simpl in Hlen; lia].
    assert (e ∈ [err]) as ->%list_elem_of_singleton; [|done].
    eapply elem_of_submseteq; [|exact Hsub]. by left. }
  split; [done|]. intros Hc Hidx.
  destruct (loadInfo_complete PossibleMethods username storageProvider prefs0
              sched log Hc Hidx) as [r Hr].
  exists r. split; [done | by apply Hsafe].
Qed.

Lemma loadInfo_single_failure_witness :
  exists r,
    loadInfo threeMethods "john" storeU2FDown roundRobin UserPreferences_zero []
    = Some r
    /\ returned r = [errorString "u2f: connection refused"].
Proof.
  refine (proj2 (loadInfo_single_failure threeMethods "john" storeU2FDown
                   UserPreferences_zero [] roundRobin _ eq_refl) _ _).
  - intros []; vm_compute; lia.
  - intros method [= <-]. vm_compute. discriminate.
Defined.

(** ** The goroutines one after the other *)

Section InTurn.

Variable PossibleMethods : list string.
Variable username : string.
Variable storageProvider : Provider.

Local Abbreviation run := (exec PossibleMethods username storageProvider).

Lemma exec_app sched1 sched2 m : run (sched1 ++ sched2) m = run sched2 (run sched1 m).
Proof. revert m. induction sched1 as [|g sched1 IH]; intros m; simpl; auto. Qed.

(** A goroutine run from its start to its end appends its failure, if any,
    to the slice as it finds it, and leaves the other goroutines where they
    are. *)
Lemma run_to_end g m :
  remainingOf g m = 5 ->
  errors (mem (run (replicate 5 g) m))
  = errors (mem m) ++ option_list (failureOf username storageProvider g)
  /\ (forall g', g' <> g ->
        remainingOf g' (run (replicate 5 g) m) = remainingOf g' m).
Proof.
  destruct m as [s pm pu pt]. destruct g; simpl; intros Hpc.
  - destruct pm; try discriminate. clear Hpc.
    unfold failureMethod, step; simpl.
    destruct (LoadPreferred2FAMethod storageProvider username) as [method [e|]]; simpl.
    + destruct (wg s); simpl; (split; [done|]); intros []; done.
    + rewrite app_nil_r.
      destruct (decide (method = "")); [destruct (PossibleMethods !! 0%nat); [|unfold panicking; destruct (wg s)]|];
        simpl; try (destruct (wg s); simpl); (split; [done|]); intros []; done.
  - destruct pu; try discriminate. clear Hpc.
    unfold failureU2F, step; simpl.
    destruct (LoadU2FDeviceHandle storageProvider username) as [[h k] [e|]]; simpl.
    + destruct (decide (e = ErrNoU2FDeviceHandle)); simpl;
        rewrite ?app_nil_r; destruct (wg s); simpl; (split; [done|]); intros []; done.
    + rewrite app_nil_r. destruct (wg s); simpl; (split; [done|]); intros []; done.
  - destruct pt; try discriminate. clear Hpc.
    unfold failureTOTP, step; simpl.
    destruct (LoadTOTPSecret storageProvider username) as [secret [e|]]; simpl.
    + destruct (decide (e = ErrNoTOTPSecret)); simpl;
        rewrite ?app_nil_r; destruct (wg s); simpl; (split; [done|]); intros []; done.
    + rewrite app_nil_r. destruct (wg s); simpl; (split; [done|]); intros []; done.
Qed.

End InTurn.

Lemma inTurn_complete g1 g2 g3 : NoDup [g1; g2; g3] -> complete (inTurn g1 g2 g3).
Proof.
  intros Hnd.
  apply NoDup_cons in Hnd as [H1 Hnd]. apply NoDup_cons in Hnd as [H2 _].
  apply not_elem_of_cons in H1 as [? [? _]%not_elem_of_cons].
  apply not_elem_of_cons in H2 as [? _].
  destruct g1, g2, g3; try done; intros []; vm_compute; lia.
Qed.

(** X4. When the three goroutines run one after the other, in whatever
    order, nothing is lost: the list [loadInfo] returns is the failures of
    the lookups, in the order in which the goroutines ran; and under these
    schedules it does return, unless the index expression panics. *)
Theorem loadInfo_in_turn
    PossibleMethods username storageProvider prefs0 log g1 g2 g3 :
  NoDup [g1; g2; g3] ->
  let inOrder := option_list (failureOf username storageProvider g1)
                 ++ option_list (failureOf username storageProvider g2)
                 ++ option_list (failureOf username storageProvider g3) in
  (forall r,
      loadInfo PossibleMethods username storageProvider (inTurn g1 g2 g3)
               prefs0 log = Some r ->
      returned r = inOrder)
  /\ ((forall method,
          LoadPreferred2FAMethod storageProvider username = (method, None) ->
          methodChosen PossibleMethods method <> None) ->
      exists r,
        loadInfo PossibleMethods username storageProvider (inTurn g1 g2 g3)
                 prefs0 log = Some r
        /\ returned r = inOrder).
Proof.
  intros Hnd. simpl.
  assert (forall r,
             loadInfo PossibleMethods username storageProvider (inTurn g1 g2 g3)
                      prefs0 log = Some r ->
             returned r = option_list (failureOf username storageProvider g1)
                          ++ option_list (failureOf username storageProvider g2)
                          ++ option_list (failureOf username storageProvider g3))
    as Hsafe.
  { assert (g1 <> g2 /\ g1 <> g3 /\ g2 <> g3) as (H12 & H13 & H23).
    { pose proof Hnd as Hnd'.
      apply NoDup_cons in Hnd' as [H1 Hnd']. apply NoDup_cons in Hnd' as [H2 _].
      apply not_elem_of_cons in H1 as [? [? _]%not_elem_of_cons].
      by apply not_elem_of_cons in H2 as [? _]. }
    intros r. unfold loadInfo, inTurn. rewrite !exec_app.
    set (m0 := spawn prefs0 log).
    set (m1 := exec _ _ _ (replicate 5 g1) m0).
    set (m2 := exec _ _ _ (replicate 5 g2) m1).
    set (m3 := exec _ _ _ (replicate 5 g3) m2).
    assert (forall g, remainingOf g m0 = 5) as Hstart by (by intros []).
    destruct (run_to_end PossibleMethods username storageProvider g1 m0 (Hstart g1))
      as [He1 Hr1]. fold m1 in He1, Hr1.
    assert (remainingOf g2 m1 = 5) as Hs2 by (rewrite Hr1; auto).
    destruct (run_to_end PossibleMethods username storageProvider g2 m1 Hs2)
      as [He2 Hr2]. fold m2 in He2, Hr2.
    assert (remainingOf g3 m2 = 5) as Hs3 by (rewrite Hr2, Hr1; auto).
    destruct (run_to_end PossibleMethods username storageProvider g3 m2 Hs3)
      as [He3 _]. fold m3 in He3.
    destruct (crashed m3); [done|]. destruct (wg (mem m3)); [|done].
    intros [= <-]. simpl. rewrite He3, He2, He1. unfold m0. simpl.
    by rewrite <- (assoc (++)). }
  split; [done|]. intros Hidx.
  destruct (loadInfo_complete PossibleMethods username storageProvider prefs0
              (inTurn g1 g2 g3) log (inTurn_complete _ _ _ Hnd) Hidx) as [r Hr].
  exists r. split; [done | by apply Hsafe].
Qed.

Lemma loadInfo_in_turn_witness :
  exists r,
    loadInfo threeMethods "john" storeTwoDown (inTurn GU2F GTOTP GMethod)
             UserPreferences_zero [] = Some r
    /\ returned r = [errorString "u2f: connection refused";
                     errorString "totp: connection refused"].
Proof.
  refine (proj2 (loadInfo_in_turn threeMethods "john" storeTwoDown
                   UserPreferences_zero [] GU2F GTOTP GMethod _) _).
  - repeat constructor; rewrite ?elem_of_cons, ?elem_of_nil; intuition discriminate.
  - intros method [= <-]. vm_compute. discriminate.
Defined.

(** X5. [loadInfo] only ever sets a flag: on whatever result it is called, a
    lookup that ends in an error (sentinel or not) leaves its field as the
    caller passed it, so a flag that was true stays true and the method
    stays what it was. *)
Theorem loadInfo_keeps_fields
    PossibleMethods username storageProvider prefs0 log sched r :
  loadInfo PossibleMethods username storageProvider sched prefs0 log = Some r ->
  (is_Some (LoadPreferred2FAMethod storageProvider username).2 ->
   Method (result r) = Method prefs0)
  /\ (is_Some (LoadU2FDeviceHandle storageProvider username).2 ->
      HasU2F (result r) = HasU2F prefs0)
  /\ (is_Some (LoadTOTPSecret storageProvider username).2 ->
      HasTOTP (result r) = HasTOTP prefs0)
  /\ (HasU2F prefs0 = true -> HasU2F (result r) = true)
  /\ (HasTOTP prefs0 = true -> HasTOTP (result r) = true).
Proof.
  intros Hr. apply loadInfo_Some in Hr as (_ & _ & Hm & Hu & Ht).
  destruct (LoadPreferred2FAMethod _ _) as [method [e1|]];
    destruct ((LoadU2FDeviceHandle _ _).2) as [e2|];
    destruct ((LoadTOTPSecret _ _).2) as [e3|]; simpl;
    split_and!; try done; try (by intros [? [=]]); congruence.
Qed.

Lemma loadInfo_keeps_fields_witness :
  HasU2F {| Method := "totp"; HasU2F := true; HasTOTP := true |} = true.
Proof.
  refine (proj1 (proj2 (proj2 (proj2
    (loadInfo_keeps_fields threeMethods "john" storeNothingRegistered
       {| Method := "u2f"; HasU2F := true; HasTOTP := true |} [] roundRobin
       {| returned := [];
          result := {| Method := "totp"; HasU2F := true; HasTOTP := true |};
          logged := [] |}
       ltac:(vm_compute; reflexivity))))) eq_refl).
Defined.

(** X7. Whenever [UserInfoGet] answers it answers once, with the JSON body
    exactly when no lookup failed and with [ctx.Error] otherwise, and it
    hands nothing to the store; it does answer once every goroutine has been
    given its steps, unless the index expression panics. *)
Theorem UserInfoGet_once PossibleMethods operationFailedMessage sched ctx :
  let fails := failures (sessionUsername ctx) (StorageProvider ctx) in
  (forall ctx',
      UserInfoGet PossibleMethods operationFailedMessage sched ctx = Some ctx' ->
      (exists answer,
          replies ctx' = replies ctx ++ [answer]
          /\ ((exists body, answer = ReplyJSONBody body) <-> fails = [])
          /\ ((exists err message, answer = ReplyError err message) <-> fails <> []))
      /\ saves ctx' = saves ctx)
  /\ (complete sched ->
      (forall method,
          LoadPreferred2FAMethod (StorageProvider ctx) (sessionUsername ctx)
          = (method, None) ->
          methodChosen PossibleMethods method <> None) ->
      is_Some (UserInfoGet PossibleMethods operationFailedMessage sched ctx)).
Proof.
  simpl. split; [|apply UserInfoGet_complete].
  intros ctx' Hget.
  destruct (loadInfo PossibleMethods (sessionUsername ctx) (StorageProvider ctx)
              sched UserPreferences_zero (Logger ctx)) as [r|] eqn:Hr;
    [|unfold UserInfoGet in Hget; by rewrite Hr in Hget].
  rewrite (UserInfoGet_unfold _ operationFailedMessage _ _ _ Hr) in Hget.
  injection Hget as <-. simpl.
  pose proof (loadInfo_empty_iff _ _ _ _ _ _ _ Hr) as Hiff.
  split; [|done].
  eexists. split; [done|]. case_bool_decide as Hnil.
  - apply Hiff in Hnil. split.
    + split; [done | eauto].
    + split; [by intros (? & ? & [=]) | done].
  - assert (failures (sessionUsername ctx) (StorageProvider ctx) <> []) as Hne
      by (intros Hf; by apply Hiff in Hf).
    split.
    + split; [by intros [body [=]] | done].
    + split; [done | eauto].
Qed.

Lemma UserInfoGet_once_witness :
  exists ctx',
    UserInfoGet threeMethods "Operation failed." roundRobin
                (requestOf storeU2FDown "") = Some ctx'
    /\ saves ctx' = [].
Proof.
  destruct (UserInfoGet_once threeMethods "Operation failed." roundRobin
              (requestOf storeU2FDown "")) as [Hsafe Hlive].
  destruct Hlive as [ctx' Hget].
  - intros []; vm_compute; lia.
  - intros method [= <-]. vm_compute. discriminate.
  - exists ctx'. split; [exact Hget | exact (proj2 (Hsafe ctx' Hget))].
Defined.

(** X8. [MethodPreferencePost] answers exactly once on every path, and with
    OK exactly when the body parses, the method is one of [PossibleMethods]
    and the store accepts it; it calls the store, once and for the user of
    the session, exactly when the method has passed the check, after having
    written its debug line to the log. *)
Theorem MethodPreferencePost_once
    PossibleMethods operationFailedMessage textNoU2F textNoTOTP ParseBody ctx :
  let ctx' := MethodPreferencePost PossibleMethods operationFailedMessage
                                   textNoU2F textNoTOTP ParseBody ctx in
  let parsed := ParseBody (requestBody ctx) {| BodyMethod := "" |} in
  let method := BodyMethod parsed.1 in
  let checked := parsed.2 = None /\ method ∈ PossibleMethods in
  (exists answer,
      replies ctx' = replies ctx ++ [answer]
      /\ (answer = ReplyOK <->
          checked
          /\ SavePreferred2FAMethod (StorageProvider ctx) (sessionUsername ctx)
                                    method = None))
  /\ (checked ->
      saves ctx' = saves ctx ++ [(sessionUsername ctx, method)]
      /\ LogDebug ("Save new preferred 2FA method of user "
                   +:+ sessionUsername ctx +:+ " to " +:+ method) ∈ Logger ctx')
  /\ (~ checked -> saves ctx' = saves ctx).
Proof.
  simpl. unfold MethodPreferencePost, IsStringInSlice.
  destruct (ParseBody _ _) as [bodyJSON [perr|]]; simpl.
  - split_and!.
    + eexists. split; [done|]. split; [done | by intros (([=] & _) & _)].
    + by intros ([=] & _).
    + done.
  - case_bool_decide as Hin; simpl.
    + split_and!.
      * destruct (SavePreferred2FAMethod _ _ _) as [serr|] eqn:Es;
          (eexists; split; [done|]); split; try done. by intros (_ & [=]).
      * intros _. destruct (SavePreferred2FAMethod _ _ _); simpl;
          (split; [done|]); apply elem_of_app; right; by left.
      * intros Hnot. destruct Hnot. done.
    + split_and!.
      * eexists. split; [done|]. split; [done | by intros ((_ & ?) & _)].
      * by intros (_ & ?).
      * done.
Qed.

Lemma MethodPreferencePost_once_witness :
  saves (MethodPreferencePost threeMethods "Operation failed."
           "no U2F device handle found" "no TOTP secret registered" parseRaw
           (requestOf storeTwoDown "u2f"))
  = [("john", "u2f")]
  /\ saves (MethodPreferencePost threeMethods "Operation failed."
              "no U2F device handle found" "no TOTP secret registered" parseRaw
              (requestOf storeTwoDown "sms"))
     = [].
Proof.
  pose proof (MethodPreferencePost_once threeMethods "Operation failed."
                "no U2F device handle found" "no TOTP secret registered" parseRaw)
    as H.
  split.
  - destruct (H (requestOf storeTwoDown "u2f")) as (_ & Hyes & _).
    refine (proj1 (Hyes (conj eq_refl _))). right. left.
  - destruct (H (requestOf storeTwoDown "sms")) as (_ & _ & Hno).
    refine (Hno _). intros [_ Hin].
    repeat (apply elem_of_cons in Hin as [[=]|Hin]). by apply elem_of_nil in Hin.
Defined.

(** ** The key manager: what adding a key does and keeps *)

Section KeySetFacts.

Import oidc.

Variable Thumbprint : JSONWebKey -> orError (list Byte.byte).
Variable ParseRsaPrivateKeyFromPemStr : string -> orError rsaPrivateKey.

Lemma consistent_empty : consistent emptyManager.
Proof.
  split_and!; simpl.
  - constructor.
  - intros wk Hin. by apply elem_of_nil in Hin.
  - intros kid key Hlook. by rewrite lookup_empty in Hlook.
Qed.

Lemma AddActiveKey_inl m key m' wk :
  AddActiveKey Thumbprint m key = (m', inl wk) ->
  Thumbprint (webKeyOf "" key) = inl (String.list_byte_of_string (KeyID wk))
  /\ wk = webKeyOf (KeyID wk) key
  /\ keys m !! KeyID wk = None
  /\ keys m' !! KeyID wk = Some key
  /\ (forall kid, kid <> KeyID wk -> keys m' !! kid = keys m !! kid)
  /\ Keys (keySet m') = Keys (keySet m) ++ [wk]
  /\ strategy m' = strategy m
  /\ activeKeyID m' = activeKeyID m.
Proof.
  unfold AddActiveKey, webKeyOf.
  destruct (Thumbprint _) as [digest|err]; [|done].
  destruct (keys m !! _) eqn:E; [done|]. intros [= <- <-]; simpl.
  rewrite String.list_byte_of_string_of_list_byte.
  split_and!; try done.
  - apply lookup_insert_eq.
  - intros kid Hne. by apply lookup_insert_ne.
Qed.

(** X9. A successful [AddActiveKey] stores the key under the text of its
    thumbprint, an id that was free, leaves every other entry of the map as
    it was, appends to the key set the RS256 signature web key of the public
    key with that id, and touches neither the strategy nor the active key
    id. *)
Theorem AddActiveKey_success m key m' wk :
  AddActiveKey Thumbprint m key = (m', inl wk) ->
  Thumbprint (webKeyOf "" key) = inl (String.list_byte_of_string (KeyID wk))
  /\ wk = webKeyOf (KeyID wk) key
  /\ keys m !! KeyID wk = None
  /\ keys m' !! KeyID wk = Some key
  /\ (forall kid, kid <> KeyID wk -> keys m' !! kid = keys m !! kid)
  /\ Keys (keySet m') = Keys (keySet m) ++ [wk]
  /\ strategy m' = strategy m
  /\ activeKeyID m' = activeKeyID m.
Proof. apply AddActiveKey_inl. Qed.

(** X10. A call of [AddActiveKey] or [AddActiveKeyData] that returns an error
    leaves the manager exactly as it was; [AddActiveKey] fails only with the
    error of the thumbprint or because the id is taken. *)
Theorem AddActiveKey_failure m key data :
  (forall m' err,
      AddActiveKey Thumbprint m key = (m', inr err) ->
      m' = m
      /\ (Thumbprint (webKeyOf "" key) = inr err
          \/ exists digest,
               Thumbprint (webKeyOf "" key) = inl digest
               /\ is_Some (keys m !! String.string_of_list_byte digest)
               /\ err = errorString ("key id " +:+ String.string_of_list_byte digest
                                     +:+ " already exists")))
  /\ (forall m' err,
        AddActiveKeyData Thumbprint ParseRsaPrivateKeyFromPemStr m data
        = (m', inr err) -> m' = m).
Proof.
  assert (forall k m' err, AddActiveKey Thumbprint m k = (m', inr err) ->
            m' = m
            /\ (Thumbprint (webKeyOf "" k) = inr err
                \/ exists digest,
                     Thumbprint (webKeyOf "" k) = inl digest
                     /\ is_Some (keys m !! String.string_of_list_byte digest)
                     /\ err = errorString ("key id "
                                           +:+ String.string_of_list_byte digest
                                           +:+ " already exists"))) as Hadd.
  { intros k m' err. unfold AddActiveKey, webKeyOf.
    destruct (Thumbprint _) as [digest|terr].
    - destruct (keys m !! _) eqn:E; [|done]. intros [= <- <-].
      split; [done|]. right. exists digest. rewrite E. eauto.
    - intros [= <- <-]. split; [done|]. by left. }
  split; [apply Hadd|].
  intros m' err. unfold AddActiveKeyData.
  destruct (ParseRsaPrivateKeyFromPemStr data) as [k|perr]; [|by intros [= <- _]].
  destruct (AddActiveKey Thumbprint m k) as [m1 [wk|aerr]] eqn:E; [done|].
  intros [= <- <-]. by destruct (Hadd _ _ _ E).
Qed.

(** X11. A key cannot be added twice: after a successful [AddActiveKey], the
    same call again, or a call with any key that has the same thumbprint,
    fails with "key id ... already exists" and changes nothing. *)
Theorem AddActiveKey_twice m key m' wk key' :
  AddActiveKey Thumbprint m key = (m', inl wk) ->
  Thumbprint (webKeyOf "" key') = Thumbprint (webKeyOf "" key) ->
  AddActiveKey Thumbprint m' key'
  = (m', inr (errorString ("key id " +:+ KeyID wk +:+ " already exists"))).
Proof.
  intros Hadd Hsame.
  apply AddActiveKey_inl in Hadd as (Hd & _ & _ & Hlook & _).
  unfold AddActiveKey. fold (webKeyOf "" key'). rewrite Hsame, Hd.
  rewrite String.string_of_list_byte_of_string. by rewrite Hlook.
Qed.

End KeySetFacts.

Lemma AddActiveKey_success_witness :
  oidc.keys (oidc.AddActiveKey oidc.thumbprintOfModulus oidc.emptyManager oidc.exampleKey).1
  !! "sha256:3233" = Some oidc.exampleKey.
Proof.
  exact (proj1 (proj2 (proj2 (proj2
    (AddActiveKey_success oidc.thumbprintOfModulus oidc.emptyManager oidc.exampleKey _
       (oidc.webKeyOf "sha256:3233" oidc.exampleKey) eq_refl))))).
Defined.

Lemma AddActiveKey_failure_witness :
  (oidc.AddActiveKeyData oidc.thumbprintOfModulus oidc.parseExample oidc.emptyManager "").1
  = oidc.emptyManager.
Proof.
  exact (proj2 (AddActiveKey_failure oidc.thumbprintOfModulus oidc.parseExample
                  oidc.emptyManager oidc.exampleKey "") _
               (errorString "failed to decode PEM block") eq_refl).
Defined.

Lemma AddActiveKey_twice_witness :
  oidc.AddActiveKey oidc.thumbprintOfModulus
    (oidc.AddActiveKey oidc.thumbprintOfModulus oidc.emptyManager oidc.exampleKey).1 oidc.exampleKey
  = ((oidc.AddActiveKey oidc.thumbprintOfModulus oidc.emptyManager oidc.exampleKey).1,
     inr (errorString "key id sha256:3233 already exists")).
Proof.
  exact (AddActiveKey_twice oidc.thumbprintOfModulus oidc.emptyManager oidc.exampleKey _
           (oidc.webKeyOf "sha256:3233" oidc.exampleKey) oidc.exampleKey eq_refl eq_refl).
Defined.

(** ** The key manager: the key set and the map of keys agree *)

Section KeyInvariantFacts.

Import oidc.

Variable Thumbprint : JSONWebKey -> orError (list Byte.byte).
Variable ParseRsaPrivateKeyFromPemStr : string -> orError rsaPrivateKey.

Lemma consistent_strategy m s :
  consistent m ->
  consistent {| activeKeyID := activeKeyID m; keys := keys m;
                keySet := keySet m; strategy := s |}.
Proof. done. Qed.

Lemma AddActiveKey_keeps_consistent m key :
  consistent m -> consistent (AddActiveKey Thumbprint m key).1.
Proof.
  intros (Hnd & Hlisted & Hstored).
  destruct (AddActiveKey Thumbprint m key) as [m' [wk|err]] eqn:E; simpl.
  - apply AddActiveKey_inl in E
      as (_ & Hwk & Hfree & Hnew & Hother & Hkeys & _ & _).
    assert (forall wk', wk' ∈ Keys (keySet m) -> KeyID wk' <> KeyID wk) as Hfresh.
    { intros wk' Hin Heq. destruct (Hlisted wk' Hin) as (key' & Hl & _).
      rewrite Heq, Hfree in Hl. done. }
    split_and!; rewrite ?Hkeys.
    + rewrite fmap_app. apply NoDup_app. split_and!; [done| |apply NoDup_singleton].
      intros kid [wk' [-> Hin]]%list_elem_of_fmap Heq%list_elem_of_singleton.
      by destruct (Hfresh wk' Hin).
    + intros wk' [Hin | ->%list_elem_of_singleton]%elem_of_app.
      * destruct (Hlisted wk' Hin) as (key' & Hl & Heq). exists key'.
        rewrite Hother by auto. done.
      * exists key. done.
    + intros kid key' Hl. destruct (decide (kid = KeyID wk)) as [->|Hne].
      * exists wk. split; [|done]. apply elem_of_app. right. by left.
      * rewrite Hother in Hl by done. destruct (Hstored kid key' Hl) as (wk' & Hin & Hid).
        exists wk'. split; [|done]. apply elem_of_app. by left.
  - unfold AddActiveKey in E.
    destruct (Thumbprint _); [destruct (keys m !! _)|]; by simplify_eq.
Qed.

(** X12. The key set and the map of keys stay in step: [AddActiveKey] keeps
    them so whether it succeeds or fails (no id listed twice, every listed
    web key is the one of the private key stored under its id, every stored
    id is listed), and the manager that [NewKeyManager] returns has them
    so. *)
Theorem KeyManager_consistent m key IssuerPrivateKey :
  (consistent m -> consistent (AddActiveKey Thumbprint m key).1)
  /\ (forall manager,
        NewKeyManager Thumbprint ParseRsaPrivateKeyFromPemStr IssuerPrivateKey
        = inl manager -> consistent manager).
Proof.
  split; [apply AddActiveKey_keeps_consistent|].
  intros manager. unfold NewKeyManager, AddActiveKeyData.
  destruct (ParseRsaPrivateKeyFromPemStr _) as [k|perr]; [|done].
  pose proof (AddActiveKey_keeps_consistent emptyManager k consistent_empty) as Hc.
  fold emptyManager.
  destruct (AddActiveKey Thumbprint emptyManager k) as [m1 [wk|err]]; [|done].
  simpl in *. intros [= <-]. by apply consistent_strategy.
Qed.

Lemma filter_unique_id (l : list JSONWebKey) kid :
  NoDup (KeyID <$> l) ->
  filter (fun k => KeyID k = kid) l = []
  \/ exists wk, filter (fun k => KeyID k = kid) l = [wk].
Proof.
  induction l as [|wk l IH]; simpl; [by left|].
  intros [Hnotin Hnd]%NoDup_cons. rewrite filter_cons.
  destruct (decide (KeyID wk = kid)) as [Heq|Hne]; [|auto].
  right. exists wk. f_equal.
  destruct (filter _ l) as [|wk' rest] eqn:Hf; [done|].
  assert (wk' ∈ filter (fun k => KeyID k = kid) l) as [Hid Hin]%list_elem_of_filter
    by (rewrite Hf; by left).
  destruct Hnotin. apply list_elem_of_fmap. exists wk'. split; [congruence | done].
Qed.

Lemma KeySet_Key_consistent m kid :
  consistent m ->
  KeySet_Key (keySet m) kid
  = match keys m !! kid with
    | Some key => [webKeyOf kid key]
    | None => []
    end.
Proof.
  intros (Hnd & Hlisted & Hstored). unfold KeySet_Key.
  destruct (keys m !! kid) as [key|] eqn:E.
  - destruct (Hstored _ _ E) as (wk & Hin & Hid).
    assert (wk ∈ filter (fun k => KeyID k = kid) (Keys (keySet m))) as Hf
      by (by apply list_elem_of_filter).
    destruct (filter_unique_id (Keys (keySet m)) kid Hnd)
      as [Hnil | [wk' Hone]]; rewrite ?Hnil, ?Hone in Hf |- *.
    + by apply elem_of_nil in Hf.
    + apply list_elem_of_singleton in Hf as ->.
      destruct (Hlisted wk' Hin) as (key' & Hl & Heq).
      rewrite Hid in Hl, Heq. rewrite E in Hl. injection Hl as <-.
      by rewrite Heq.
  - destruct (filter _ _) as [|wk rest] eqn:Hf; [done|].
    assert (wk ∈ filter (fun k => KeyID k = kid) (Keys (keySet m))) as Hin
      by (rewrite Hf; by left).
    apply list_elem_of_filter in Hin as [Hid Hin].
    destruct (Hlisted wk Hin) as (key' & Hl & _). rewrite Hid, E in Hl. done.
Qed.

(** X13. On a manager whose key set and map agree, as [NewKeyManager] and
    [AddActiveKey] leave it, the key set answers for every key id as the map
    does: it holds exactly one web key with that id, the web key of the
    private key stored under it, when the map has the id, and none when it
    has not; so [GetActiveWebKey] never reports several keys with the same
    id. *)
Theorem KeySet_Key_agrees m kid :
  consistent m ->
  KeySet_Key (keySet m) kid
  = match keys m !! kid with
    | Some key => [webKeyOf kid key]
    | None => []
    end
  /\ (GetActiveWebKey m).2 <> Some (errorString "multiple keys with the same key id").
Proof.
  intros Hc. split; [by apply KeySet_Key_consistent|].
  unfold GetActiveWebKey. rewrite (KeySet_Key_consistent _ _ Hc).
  by destruct (keys m !! activeKeyID m).
Qed.

(** X14. [NewKeyManager] fails exactly with the error of the parser or of
    the thumbprint, never because an id is taken; when both succeed it
    returns a manager that holds that one key under the text of its
    thumbprint, lists its web key alone, and has a strategy with the same
    key id and that private key. *)
Theorem NewKeyManager_outcome IssuerPrivateKey :
  match ParseRsaPrivateKeyFromPemStr IssuerPrivateKey with
  | inr err =>
      NewKeyManager Thumbprint ParseRsaPrivateKeyFromPemStr IssuerPrivateKey = inr err
  | inl key =>
      match Thumbprint (webKeyOf "" key) with
      | inr err =>
          NewKeyManager Thumbprint ParseRsaPrivateKeyFromPemStr IssuerPrivateKey
          = inr err
      | inl digest =>
          let id := String.string_of_list_byte digest in
          exists m s,
            NewKeyManager Thumbprint ParseRsaPrivateKeyFromPemStr IssuerPrivateKey
            = inl m
            /\ keys m = {[ id := key ]}
            /\ Keys (GetKeySet m) = [webKeyOf id key]
            /\ Strategy m = Some s
            /\ StrategyKeyID s = id
            /\ GetPublicKeyID s = (id, None)
            /\ PrivateKey s = Some key
      end
  end.
Proof.
  unfold NewKeyManager, AddActiveKeyData, AddActiveKey. fold webKeyOf.
  destruct (ParseRsaPrivateKeyFromPemStr _) as [key|perr]; [|done].
  fold (webKeyOf "" key).
  destruct (Thumbprint (webKeyOf "" key)) as [digest|terr]; [|done].
  cbn [keys]. rewrite lookup_empty. simpl.
  eexists _, _. split_and!; try done.
Qed.

End KeyInvariantFacts.

Lemma KeyManager_consistent_witness :
  oidc.consistent
    (oidc.AddActiveKey oidc.thumbprintOfModulus oidc.emptyManager oidc.exampleKey).1
  /\ exists manager,
       oidc.NewKeyManager oidc.thumbprintOfModulus oidc.parseExample "pem"
       = inl manager
       /\ oidc.consistent manager.
Proof.
  destruct (KeyManager_consistent oidc.thumbprintOfModulus oidc.parseExample
              oidc.emptyManager oidc.exampleKey "pem") as [Hadd Hnew].
  split; [exact (Hadd consistent_empty)|].
  eexists. split; [reflexivity|]. apply Hnew. reflexivity.
Defined.

Lemma KeySet_Key_agrees_witness :
  oidc.KeySet_Key
    (oidc.keySet
       (oidc.AddActiveKey oidc.thumbprintOfModulus oidc.emptyManager
                          oidc.exampleKey).1)
    "sha256:3233"
  = [oidc.webKeyOf "sha256:3233" oidc.exampleKey].
Proof.
  exact (proj1 (KeySet_Key_agrees
                  (oidc.AddActiveKey oidc.thumbprintOfModulus oidc.emptyManager
                                     oidc.exampleKey).1
                  "sha256:3233"
                  (AddActiveKey_keeps_consistent oidc.thumbprintOfModulus
                     oidc.emptyManager oidc.exampleKey consistent_empty))).
Defined.

(** X15. The schedule decides only which failures survive in the returned
    list: two runs of [loadInfo] on the same user, store and result, under
    whatever two schedules, end with the same [UserPreferences], with logs
    that hold the same entries, and either both or neither with an empty
    list. *)
Theorem loadInfo_result_schedule_independent
    PossibleMethods username storageProvider prefs0 log sched1 sched2 r1 r2 :
  loadInfo PossibleMethods username storageProvider sched1 prefs0 log = Some r1 ->
  loadInfo PossibleMethods username storageProvider sched2 prefs0 log = Some r2 ->
  result r1 = result r2
  /\ logged r1 ≡ₚ logged r2
  /\ (returned r1 = [] <-> returned r2 = []).
Proof.
  intros H1 H2.
  destruct (loadInfo_accounting _ _ _ _ _ _ _ H1) as [_ Hl1].
  destruct (loadInfo_accounting _ _ _ _ _ _ _ H2) as [_ Hl2].
  pose proof (loadInfo_empty_iff _ _ _ _ _ _ _ H1) as Hn1.
  pose proof (loadInfo_empty_iff _ _ _ _ _ _ _ H2) as Hn2.
  apply loadInfo_Some in H1 as (_ & _ & Hm1 & Hu1 & Ht1).
  apply loadInfo_Some in H2 as (_ & _ & Hm2 & Hu2 & Ht2).
  split_and!.
  - destruct (result r1) as [a1 b1 c1], (result r2) as [a2 b2 c2]; simpl in *.
    destruct (LoadPreferred2FAMethod _ _) as [method [e|]];
      destruct ((LoadU2FDeviceHandle _ _).2);
      destruct ((LoadTOTPSecret _ _).2); f_equal; congruence.
  - by rewrite Hl1, Hl2.
  - by rewrite Hn1, Hn2.
Qed.

Lemma loadInfo_result_schedule_independent_witness :
  result {| returned := [errorString "totp: connection refused"];
            result := {| Method := "totp"; HasU2F := false; HasTOTP := false |};
            logged := [LogError (errorString "u2f: connection refused");
                       LogError (errorString "totp: connection refused")] |}
  = result {| returned := [errorString "u2f: connection refused";
                           errorString "totp: connection refused"];
              result := {| Method := "totp"; HasU2F := false; HasTOTP := false |};
              logged := [LogError (errorString "u2f: connection refused");
                         LogError (errorString "totp: connection refused")] |}.
Proof.
  exact (proj1 (loadInfo_result_schedule_independent threeMethods "john"
                  storeTwoDown UserPreferences_zero [] racing oneByOne _ _
                  ltac:(vm_compute; reflexivity) ltac:(vm_compute; reflexivity))).
Defined.

(** X16. Whatever the schedule, the counter of the wait group is the number
    of goroutines whose [wg.Done()] has not run yet, those that have neither
    exited nor panicked, so [wg.Done()] never drives it below zero; and the
    only panic there can be is the index expression on an empty
    [PossibleMethods], after a lookup that gave the empty method. *)
Theorem loadInfo_panics_only_on_index
    PossibleMethods username storageProvider prefs0 log sched :
  let m := exec PossibleMethods username storageProvider sched (spawn prefs0 log) in
  wg (mem m) = live (pcMethod m) + live (pcU2F m) + live (pcTOTP m)
  /\ pcU2F m <> Panicked /\ pcTOTP m <> Panicked
  /\ (crashed m = true ->
      LoadPreferred2FAMethod storageProvider username = ("", None)
      /\ PossibleMethods = []).
Proof.
  simpl.
  pose proof (Inv_exec PossibleMethods username storageProvider prefs0 sched _
                (Inv_spawn _ _ _ _ log)) as [Hm Hu Ht Hwg _].
  split_and!; [done| | |].
  - intros E. rewrite E in Hu. by destruct Hu as (_ & _ & []).
  - intros E. rewrite E in Ht. by destruct Ht as (_ & _ & []).
  - unfold crashed. intros Hc.
    destruct (pcU2F _); try (by destruct Hu as (_ & _ & [])).
    all: destruct (pcTOTP _); try (by destruct Ht as (_ & _ & [])).
    all: destruct (pcMethod _); simpl in Hc; try done.
    all: destruct Hm as (_ & _ & method & E & Hnone); unfold methodChosen in Hnone.
    all: case_decide; [subst method|done].
    all: split; [done|]; by destruct PossibleMethods.
Qed.

Lemma loadInfo_panics_only_on_index_witness :
  let m := exec [] "john" storeNoPreference roundRobin
                (spawn UserPreferences_zero []) in
  crashed m = true
  /\ wg (mem m) = live (pcMethod m) + live (pcU2F m) + live (pcTOTP m)
  /\ LoadPreferred2FAMethod storeNoPreference "john" = ("", None).
Proof.
  destruct (loadInfo_panics_only_on_index [] "john" storeNoPreference
              UserPreferences_zero [] roundRobin) as (Hwg & _ & _ & Hcrash).
  split; [vm_compute; reflexivity|]. split; [exact Hwg|].
  refine (proj1 (Hcrash _)). vm_compute. reflexivity.
Defined.

(** ** The sources of the configuration *)

Section SourcesFacts.

Import configuration.

Variable Koanf : Type.
Variable koanfNew : string -> Koanf.
Variable koanfLoadYAML : Koanf -> string -> Koanf * option error.
Variable StructValidator : Type.
Variable NewStructValidator : StructValidator.

Lemma appendYAMLFileSources_spec paths sources :
  appendYAMLFileSources Koanf koanfNew paths sources
  = sources ++ (NewYAMLFileSource Koanf koanfNew <$> paths).
Proof.
  revert sources. induction paths as [|path rest IH]; intros sources; simpl.
  - by rewrite app_nil_r.
  - rewrite IH. by rewrite <- (assoc (++)).
Qed.

Lemma appendSources_spec fileSources (sources : list (Source Koanf StructValidator)) :
  appendSources Koanf StructValidator fileSources sources
  = sources ++ (OfYAMLFile Koanf StructValidator <$> fileSources).
Proof.
  revert sources. induction fileSources as [|f rest IH]; intros sources; simpl.
  - by rewrite app_nil_r.
  - rewrite IH. by rewrite <- (assoc (++)).
Qed.

Lemma NewDefaultSources_shape filePaths :
  NewDefaultSources Koanf koanfNew StructValidator NewStructValidator filePaths
  = (OfYAMLFile Koanf StructValidator
     <$> (NewYAMLFileSource Koanf koanfNew <$> filePaths))
    ++ [OfEnvironment Koanf StructValidator (NewEnvironmentSource Koanf koanfNew);
        OfSecrets Koanf StructValidator
          (NewSecretsSource Koanf koanfNew StructValidator NewStructValidator)].
Proof.
  unfold NewDefaultSources, NewYAMLFileSources.
  rewrite appendSources_spec, appendYAMLFileSources_spec. simpl.
  by rewrite <- (assoc (++)).
Qed.

(** X17. [NewDefaultSources] returns one YAML source per path, in the order
    of the paths and without checking them, followed by the environment
    source and, last, the secrets source: two more sources than paths, also
    for no path at all. *)
Theorem NewDefaultSources_order filePaths :
  let sources := NewDefaultSources Koanf koanfNew StructValidator
                                   NewStructValidator filePaths in
  Name Koanf StructValidator <$> sources
  = ((fun path => "yaml file(" +:+ path +:+ ")") <$> filePaths)
    ++ ["environment"; "secrets"]
  /\ length sources = length filePaths + 2
  /\ (forall i path, filePaths !! i = Some path ->
        sources !! i = Some (OfYAMLFile Koanf StructValidator
                               (NewYAMLFileSource Koanf koanfNew path))).
Proof.
  simpl. rewrite NewDefaultSources_shape. split_and!.
  - rewrite fmap_app, <- !list_fmap_compose. done.
  - rewrite length_app, !length_fmap. simpl. lia.
  - intros i path Hi. rewrite lookup_app_l.
    + by rewrite !list_lookup_fmap, Hi.
    + rewrite !length_fmap. by eapply lookup_lt_Some.
Qed.

(** X18. Of the default sources only the last one, the secrets source,
    carries a validator; and an empty path is not refused when the sources
    are made: the source made of it is in the list, and it is its [Load] that
    fails, with "invalid yaml path source configuration", leaving the source
    as it was and without the file loader being called. *)
Theorem default_sources_validator_and_load filePaths :
  let sources := NewDefaultSources Koanf koanfNew StructValidator
                                   NewStructValidator filePaths in
  (forall i source, sources !! i = Some source ->
     (is_Some (Validator Koanf StructValidator source)
      <-> i = S (length filePaths)))
  /\ (forall i, filePaths !! i = Some "" ->
        exists s,
          sources !! i = Some (OfYAMLFile Koanf StructValidator s)
          /\ LoadYAMLFile Koanf koanfLoadYAML s
             = (s, Some (errorString "invalid yaml path source configuration"))).
Proof.
  simpl. rewrite NewDefaultSources_shape.
  set (files := OfYAMLFile Koanf StructValidator
                <$> (NewYAMLFileSource Koanf koanfNew <$> filePaths)).
  assert (length files = length filePaths) as Hlen
    by (unfold files; by rewrite !length_fmap).
  split.
  - intros i source. destruct (decide (i < length files)) as [Hlt|Hge].
    + rewrite lookup_app_l by done. unfold files.
      rewrite !list_lookup_fmap. destruct (filePaths !! i); simpl; [|done].
      intros [= <-]. simpl. split; [by intros [? [=]] | lia].
    + rewrite lookup_app_r by lia.
      destruct (i - length files) as [|[|k]] eqn:Hi; simpl; try done.
      * intros [= <-]. simpl. split; [by intros [? [=]] | lia].
      * intros [= <-]. simpl. split; [lia | eauto].
  - intros i Hi. exists (NewYAMLFileSource Koanf koanfNew ""). split; [|done].
    rewrite lookup_app_l.
    + unfold files. by rewrite !list_lookup_fmap, Hi.
    + rewrite Hlen. by eapply lookup_lt_Some.
Qed.

End SourcesFacts.

Lemma NewDefaultSources_order_witness :
  configuration.Name unit unit
  <$> configuration.NewDefaultSources unit (fun _ => ()) unit ()
        ["/config/configuration.yml"; "/config/users.yml"]
  = ["yaml file(/config/configuration.yml)"; "yaml file(/config/users.yml)";
     "environment"; "secrets"].
Proof.
  exact (proj1 (NewDefaultSources_order unit (fun _ => ()) unit ()
                  ["/config/configuration.yml"; "/config/users.yml"])).
Defined.

Lemma default_sources_validator_and_load_witness :
  exists s,
    configuration.NewDefaultSources unit (fun _ => ()) unit ()
      ["/config/configuration.yml"; ""] !! 1
    = Some (configuration.OfYAMLFile unit unit s)
    /\ configuration.LoadYAMLFile unit (fun k _ => (k, None)) s
       = (s, Some (errorString "invalid yaml path source configuration")).
Proof.
  exact (proj2 (default_sources_validator_and_load unit (fun _ => ())
                  (fun k _ => (k, None)) unit ()
                  ["/config/configuration.yml"; ""]) 1 eq_refl).
Defined.
